(** * Penrose/spacers.py: the greedy "tetris" packer

    A shallow embedding of [tetris_pack] (src/Penrose/spacers.py, lines
    94-140) and the properties of it that the design document states,
    followed by the rest of the script that can be told apart from its
    libraries: the list of pieces ([spacer], [spacers], [lozenges]) and the
    tree surgery of [fix_svg].

    Conventions of the embedding.
    - Python floats are idealised as rationals ([Q]); numeric equality is
      [Qeq], as [==] on floats compares values.
    - shapely is not part of the repository.  It is taken as an interface,
      the class [Geometry]; the facts about it that a proof needs are the
      class [GeometryLaws].  A small rectilinear instance ([Rectilinear])
      is used to run the packer on concrete sheets.
    - The [while] loop of line 119 has no bound in the source; it is given
      fuel, and running out of fuel is the outcome [OutOfFuel].
    - Uncaught Python exceptions are the outcome [Raise].
    - [sys.stdout.write] (line 139) only reports [nb_placed] and
      [global_maxy], which are kept in the state; the text is not modelled.
    - [shapely.prepared.prep] changes the speed of a query, not its answer:
      [simplified_result_prepared] is [simplified_result].

    What the idealisation of floats leaves out.  The quotients of lines 106
    and 115 are exact here before [int], [ceil] and [floor] are taken, so a
    column count or a column range can differ from the binary64 one where
    the exact quotient is an integer or within a rounding error of one
    (width 0.3 with step 0.1, say); on integers and on dyadic fractions of
    moderate size the two agree.  There is no overflow, infinity or NaN: the
    [OverflowError] of [int] on an infinite quotient is not an outcome.
    [yoff += stepy] is exact, where binary64 absorbs a step that is tiny
    against [yoff]: that a positive step ends the loop of line 119 holds
    of the rationals, not of the floats, and is not stated below.
    [geom_bounds] is total, while shapely has no numeric bounds for
    an empty geometry: statements that read bounds are about pieces with
    at least one point.  The rotation of [Rectilinear] is the true one at
    multiples of 90 degrees only, the angles at which the sheets below use
    it. *)

From Stdlib Require Import ZArith QArith Qround Qminmax Lia Lqa Bool.
From stdpp Require Import base option list strings gmap.

Local Open Scope Q_scope.

(** ** Outcomes of a run *)

Inductive exn := ZeroDivisionError | IndexError | ValueError.

Inductive outcome (A : Type) :=
  | Return (a : A)
  | Raise (e : exn)
  | OutOfFuel.
Arguments Return {A} a.
Arguments Raise {A} e.
Arguments OutOfFuel {A}.

#[global] Instance outcome_ret : MRet outcome := fun _ a => Return a.
#[global] Instance outcome_bind : MBind outcome := fun _ _ f m =>
  match m with
  | Return a => f a
  | Raise e => Raise e
  | OutOfFuel => OutOfFuel
  end.

(** [for a in l: s = body(s, a)] with exceptions cutting the loop short. *)
Fixpoint for_each {A S : Type} (body : S -> A -> outcome S) (l : list A) (s : S)
  : outcome S :=
  match l with
  | [] => Return s
  | a :: l' => s' ← body s a; for_each body l' s'
  end.

(** ** The Python built-ins that [tetris_pack] calls *)

(** [range(a, b)] *)
Definition py_range (a b : Z) : list Z :=
  map (fun k => (a + Z.of_nat k)%Z) (seq 0 (Z.to_nat (b - a))).

(** [int(q)] on a float: truncation towards zero. *)
Definition py_int (q : Q) : Z :=
  if Qle_bool 0 q then Qfloor q else Qceiling q.

(** [max(a, b)]: the first argument unless the second is strictly larger. *)
Definition py_max (a b : Q) : Q := if Qle_bool b a then a else b.

(** List subscripts: a negative subscript counts from the end, anything
    outside [-len, len) is an [IndexError]. *)
Definition py_index {A : Type} (l : list A) (x : Z) : option nat :=
  let len := Z.of_nat (length l) in
  if ((0 <=? x) && (x <? len))%Z then Some (Z.to_nat x)
  else if ((- len <=? x) && (x <? 0))%Z then Some (Z.to_nat (x + len))
  else None.

(** [l[x]] *)
Definition py_getitem {A : Type} (l : list A) (x : Z) : outcome A :=
  match py_index l x with
  | Some k => match l !! k with Some a => Return a | None => Raise IndexError end
  | None => Raise IndexError
  end.

(** [l[x] = v] *)
Definition py_setitem {A : Type} (l : list A) (x : Z) (v : A) : outcome (list A) :=
  match py_index l x with
  | Some k => Return (<[k:=v]> l)
  | None => Raise IndexError
  end.

(** [360/nb_orientations*i] has two integer operands: the interpreter named
    in the header (python2) floors the quotient, Python 3 does not. *)
Inductive python := Python2 | Python3.

Definition rotation_angle (py : python) (nb_orientations i : Z) : Q :=
  match py with
  | Python2 => inject_Z (360 / nb_orientations * i)
  | Python3 => inject_Z 360 / inject_Z nb_orientations * inject_Z i
  end.

(** ** The geometry library, as an interface *)

Class Geometry (G : Type) := {
  (** [shapely.geometry.MultiPolygon()] *)
  MultiPolygon_empty : G;
  (** [shapely.geometry.Polygon(points)] *)
  Polygon : list (Q * Q) -> G;
  (** [g.bounds], as [(minx, miny, maxx, maxy)] *)
  geom_bounds : G -> Q * Q * Q * Q;
  (** [shapely.affinity.rotate(g, angle, origin=(0,0))], degrees *)
  affinity_rotate : G -> Q -> G;
  (** [shapely.affinity.translate(g, xoff, yoff)] *)
  affinity_translate : G -> Q -> Q -> G;
  (** [g.union(h)] *)
  geom_union : G -> G -> G;
  (** [g.intersects(h)] *)
  geom_intersects : G -> G -> bool;
  (** the point [(x, y)] belongs to the (closed) shape [g] *)
  covers : G -> Q -> Q -> Prop;
  (** [g.intersection(h).area] *)
  intersection_area : G -> G -> Q;
}.

(** The four components of [g.bounds]. *)
Definition minx_of {G : Type} `{Geometry G} (g : G) : Q := (geom_bounds g).1.1.1.
Definition miny_of {G : Type} `{Geometry G} (g : G) : Q := (geom_bounds g).1.1.2.
Definition maxx_of {G : Type} `{Geometry G} (g : G) : Q := (geom_bounds g).1.2.
Definition maxy_of {G : Type} `{Geometry G} (g : G) : Q := (geom_bounds g).2.

(** What shapely documents about these operations: [intersects] holds as
    soon as the two shapes share one point, boundary included; the bounds
    of a shape that is not empty move with it. *)
Class GeometryLaws (G : Type) `{Geometry G} : Prop := {
  intersects_covers : forall g h : G,
    geom_intersects g h = true <-> exists x y, covers g x y /\ covers h x y;
  covers_empty : forall x y, ~ covers MultiPolygon_empty x y;
  covers_union : forall (g h : G) x y,
    covers (geom_union g h) x y <-> covers g x y \/ covers h x y;
  area_disjoint : forall g h : G,
    (forall x y, ~ (covers g x y /\ covers h x y)) -> intersection_area g h == 0;
  bounds_translate : forall (g : G) dx dy,
    (exists x y, covers g x y) ->
    let '(minx, miny, maxx, maxy) := geom_bounds g in
    let '(minx', miny', maxx', maxy') := geom_bounds (affinity_translate g dx dy) in
    minx' == minx + dx /\ miny' == miny + dy /\
    maxx' == maxx + dx /\ maxy' == maxy + dy;
}.

(** ** tetris_pack *)

Section TetrisPack.
Context {G : Type} `{Geometry G}.

(** One entry of [possible_positions] (line 123).  The dictionary has the
    keys ['x'], ['yoff'], ['maxy'] and ['geom']; [pos_orientation] is a ghost
    field, the value of the loop variable [i] when the entry was appended. *)
Record position := {
  pos_orientation : Z;
  pos_x : Z;
  pos_yoff : Q;
  pos_maxy : Q;
  pos_geom : G;
}.

(** The local variables of [tetris_pack] that live across pieces.
    [placements] is a ghost variable: the [best_position] of every piece
    committed so far, oldest first. *)
Record locals := {
  result : G;
  simplified_result : G;
  starting_yoffs : list Q;
  nb_placed : Z;
  global_maxy : Q;
  placements : list position;
}.

Variable py : python.
Variable fuel : nat.
Variables width stepx stepy : Q.
Variable nb_orientations : Z.

(** Lines 119-122: [while simplified_result_prepared.intersects(geom_yshifted)].
    [n] bounds the number of times the body runs. *)
Fixpoint move_up (n : nat) (occupied geom_xshifted : G) (yoff : Q) (geom_yshifted : G)
  : outcome (Q * G) :=
  if geom_intersects occupied geom_yshifted then
    match n with
    | O => OutOfFuel
    | S n' =>
        let yoff := yoff + stepy in
        move_up n' occupied geom_xshifted yoff (affinity_translate geom_xshifted 0 yoff)
    end
  else Return (yoff, geom_yshifted).

(** Lines 116-123: the body of [for x in range(...)]. *)
Definition try_column (st : locals) (i : Z) (geom_rotated : G)
    (possible_positions : list position) (x : Z) : outcome (list position) :=
  let '(minx, miny, maxx, maxy) := geom_bounds geom_rotated in
  let geom_xshifted := affinity_translate geom_rotated (inject_Z x * stepx) (- miny) in
  yoff ← py_getitem (starting_yoffs st) x;
  '(yoff, geom_yshifted) ← move_up fuel (simplified_result st) geom_xshifted yoff geom_xshifted;
  Return (possible_positions ++
          [ {| pos_orientation := i; pos_x := x; pos_yoff := yoff;
               pos_maxy := yoff + maxy - miny; pos_geom := geom_yshifted |} ]).

(** The column range of line 115. *)
Definition columns (geom_rotated : G) : list Z :=
  let '(minx, miny, maxx, maxy) := geom_bounds geom_rotated in
  py_range (Qceiling (- minx / stepx)) (Qfloor ((width - maxx) / stepx)).

(** Lines 113-123: the body of [for i in range(nb_orientations)]. *)
Definition try_orientation (st : locals) (geom : G)
    (possible_positions : list position) (i : Z) : outcome (list position) :=
  let geom_rotated := affinity_rotate geom (rotation_angle py nb_orientations i) in
  for_each (try_column st i geom_rotated) (columns geom_rotated) possible_positions.

(** Lines 111-123. *)
Definition candidates (st : locals) (geom : G) : outcome (list position) :=
  for_each (try_orientation st geom) (py_range 0 nb_orientations) [].

(** Line 124: [min(possible_positions, key = lambda d: (d['maxy'], d['x']))].
    Tuples compare lexicographically; [min] keeps the first of several
    smallest items and raises [ValueError] on an empty list. *)
Definition key (d : position) : Q * Z := (pos_maxy d, pos_x d).

Definition key_ltb (a b : Q * Z) : bool :=
  if Qeq_bool (fst a) (fst b) then (snd a <? snd b)%Z
  else negb (Qle_bool (fst b) (fst a)).

Fixpoint min_from (best : position) (l : list position) : position :=
  match l with
  | [] => best
  | d :: l' => min_from (if key_ltb (key d) (key best) then d else best) l'
  end.

Definition py_min (l : list position) : outcome position :=
  match l with
  | [] => Raise ValueError
  | d :: l' => Return (min_from d l')
  end.

(** The rectangle of lines 131-132. *)
Definition shadow (minx miny maxx : Q) : G :=
  Polygon [ (minx, - (1 # 1000000)); (minx, miny - (1 # 1000000));
            (maxx, miny - (1 # 1000000)); (maxx, - (1 # 1000000)) ].

(** Line 134: [starting_yoffs[x] = max(starting_yoffs[x], miny)]. *)
Definition raise_level (miny : Q) (yoffs : list Q) (x : Z) : outcome (list Q) :=
  y ← py_getitem yoffs x; py_setitem yoffs x (py_max y miny).

(** The column range of line 133. *)
Definition spanned (minx maxx : Q) : list Z :=
  py_range (Qceiling (minx / stepx)) (Qfloor (maxx / stepx)).

(** Lines 125-138: what happens once [best_position] is known. *)
Definition commit (st : locals) (best_position : position) : outcome locals :=
  yoffs ← py_setitem (starting_yoffs st) (pos_x best_position) (pos_yoff best_position);
  let result' := geom_union (result st) (pos_geom best_position) in
  let simplified := geom_union (simplified_result st) (pos_geom best_position) in
  let '(minx, miny, maxx, maxy) := geom_bounds (pos_geom best_position) in
  let simplified := geom_union simplified (shadow minx miny maxx) in
  yoffs ← for_each (raise_level miny) (spanned minx maxx) yoffs;
  Return {| result := result';
            simplified_result := simplified;
            starting_yoffs := yoffs;
            nb_placed := (nb_placed st + 1)%Z;
            global_maxy := py_max maxy (global_maxy st);
            placements := placements st ++ [best_position] |}.

(** Lines 111-139: the body of [for geom in geoms]. *)
Definition pack_piece (st : locals) (geom : G) : outcome locals :=
  possible_positions ← candidates st geom;
  best_position ← py_min possible_positions;
  commit st best_position.

(** Lines 103-109.  [int(width/stepx)] raises on a zero step. *)
Definition initial : outcome locals :=
  if Qeq_bool stepx 0 then Raise ZeroDivisionError
  else
    let nb_stepx := py_int (width / stepx) in
    Return {| result := MultiPolygon_empty;
              simplified_result := MultiPolygon_empty;
              starting_yoffs := replicate (Z.to_nat nb_stepx) 0;
              nb_placed := 0%Z;
              global_maxy := 0;
              placements := [] |}.

(** The whole function, with all its locals at the [return]. *)
Definition tetris_pack_run (geoms : list G) : outcome locals :=
  st ← initial; for_each pack_piece geoms st.

(** What the caller gets: [return result] (line 140). *)
Definition tetris_pack (geoms : list G) : outcome G :=
  st ← tetris_pack_run geoms; Return (result st).

End TetrisPack.

Arguments position G : clear implicits.
Arguments locals G : clear implicits.

(** The Transform of a committed piece, in the design document's words:
    orientation index, column index, vertical offset. *)
Definition transform {G : Type} (d : position G) : Z * Z * Q :=
  (pos_orientation d, pos_x d, pos_yoff d).

(** ** A rectilinear instance of the interface

    Shapes are finite unions of closed axis-parallel rectangles.  This is
    enough to run the packer on the sheets of the design document (squares,
    one orientation).  Rotations are exact for multiples of a quarter turn;
    the instance leaves a shape alone at any other angle. *)

Module Rectilinear.

Record rect := { x0 : Q; y0 : Q; x1 : Q; y1 : Q }.

Definition shape := list rect.

Definition rect_translate (dx dy : Q) (r : rect) : rect :=
  {| x0 := x0 r + dx; y0 := y0 r + dy; x1 := x1 r + dx; y1 := y1 r + dy |}.

(** A quarter turn counter-clockwise about the origin: [(x, y)] goes to
    [(-y, x)]. *)
Definition rect_quarter (r : rect) : rect :=
  {| x0 := - y1 r; y0 := x0 r; x1 := - y0 r; y1 := x1 r |}.

Definition rotate (g : shape) (angle : Q) : shape :=
  let k := Qfloor (angle / 90) in
  if Qeq_bool angle (inject_Z (90 * k)) then
    Nat.iter (Z.to_nat (k mod 4)) (map rect_quarter) g
  else g.

Definition rect_join (r s : rect) : rect :=
  {| x0 := Qmin (x0 r) (x0 s); y0 := Qmin (y0 r) (y0 s);
     x1 := Qmax (x1 r) (x1 s); y1 := Qmax (y1 r) (y1 s) |}.

Definition bounds (g : shape) : Q * Q * Q * Q :=
  match g with
  | [] => (0, 0, 0, 0)
  | r :: g' => let b := fold_left rect_join g' r in (x0 b, y0 b, x1 b, y1 b)
  end.

(** The polygon through the given corners, for corner lists that walk
    round an axis-parallel rectangle (the only use in [tetris_pack]). *)
Definition polygon (points : list (Q * Q)) : shape :=
  match points with
  | [] => []
  | p :: ps =>
      [ fold_left rect_join
          (map (fun q => {| x0 := fst q; y0 := snd q; x1 := fst q; y1 := snd q |}) ps)
          {| x0 := fst p; y0 := snd p; x1 := fst p; y1 := snd p |} ]
  end.

(** Closed rectangles: a shared edge or corner counts. *)
Definition rect_intersects (r s : rect) : bool :=
  Qle_bool (Qmax (x0 r) (x0 s)) (Qmin (x1 r) (x1 s)) &&
  Qle_bool (Qmax (y0 r) (y0 s)) (Qmin (y1 r) (y1 s)).

Definition intersects (g h : shape) : bool :=
  existsb (fun r => existsb (rect_intersects r) h) g.

Definition rect_covers (r : rect) (x y : Q) : Prop :=
  x0 r <= x /\ x <= x1 r /\ y0 r <= y /\ y <= y1 r.

Definition shape_covers (g : shape) (x y : Q) : Prop :=
  Exists (fun r => rect_covers r x y) g.

(** Two rectangles with the same four numbers. *)
Definition rect_eq (r s : rect) : Prop :=
  x0 r == x0 s /\ y0 r == y0 s /\ x1 r == x1 s /\ y1 r == y1 s.

(** The area two rectangles have in common. *)
Definition rect_overlap (r s : rect) : Q :=
  Qmax 0 (Qmin (x1 r) (x1 s) - Qmax (x0 r) (x0 s)) *
  Qmax 0 (Qmin (y1 r) (y1 s) - Qmax (y0 r) (y0 s)).

(** Summed over the pairs of rectangles: the common area of two shapes
    whose own rectangles do not overlap one another, an upper bound of it
    otherwise. *)
Definition overlap (g h : shape) : Q :=
  fold_right (fun r acc => fold_right (fun s acc' => rect_overlap r s + acc') acc h) 0 g.

#[global] Instance rect_geometry : Geometry shape := {|
  MultiPolygon_empty := [];
  Polygon := polygon;
  geom_bounds := bounds;
  affinity_rotate := rotate;
  affinity_translate := fun g dx dy => map (rect_translate dx dy) g;
  geom_union := fun g h => g ++ h;
  geom_intersects := intersects;
  covers := shape_covers;
  intersection_area := overlap;
|}.

(** The 2 x 2 square of the design document, pivot at its centre. *)
Definition square : shape := Polygon [ (-1, -1); (1, -1); (1, 1); (-1, 1) ].

End Rectilinear.

(** The Transform sequence of a run. *)
Definition transforms {G : Type} (r : outcome (locals G)) : outcome (list (Z * Z * Q)) :=
  match r with
  | Return st => Return (map transform (placements st))
  | Raise e => Raise e
  | OutOfFuel => OutOfFuel
  end.

(** ** Sheets used as test inputs *)

Module Sheets.
Import Rectilinear.

(** An L-shaped piece turned upside down: a stem on the right and an arm
    to the left at the top, the pivot inside the arm. *)
Definition gamma : shape :=
  [ {| x0 := 3 # 2; y0 := - (11 # 2); x1 := 2; y1 := 1 # 2 |};
    {| x0 := - (1 # 2); y0 := - (3 # 10); x1 := 2; y1 := 1 # 2 |} ].

Definition no_locals : locals shape :=
  {| result := []; simplified_result := []; starting_yoffs := [];
     nb_placed := 0; global_maxy := 0; placements := [] |}.

Definition locals_of (r : outcome (locals shape)) : locals shape :=
  match r with Return st => st | _ => no_locals end.

(** The locals before the first piece, on a sheet of width 1 with steps 1. *)
Definition empty_sheet_w1 : locals shape :=
  Eval vm_compute in locals_of (tetris_pack_run Python3 0 1 1 1 1 []).

(** The locals after one square, then two, were packed on a sheet of
    width 10 with steps 1 and one orientation. *)
Definition one_square_w10 : locals shape :=
  Eval vm_compute in locals_of (tetris_pack_run Python3 0 10 1 1 1 [square]).

Definition two_squares_w10 : locals shape :=
  Eval vm_compute in locals_of (tetris_pack_run Python3 3 10 1 1 1 [square; square]).

(** The same on a sheet of width 4, where the second square can only sit
    on the first, and with [gamma] as a third piece. *)
Definition two_squares_w4 : locals shape :=
  Eval vm_compute in locals_of (tetris_pack_run Python3 3 4 1 1 1 [square; square]).

Definition three_pieces_w4 : locals shape :=
  Eval vm_compute in locals_of (tetris_pack_run Python3 3 4 1 1 1 [square; square; gamma]).

(** The candidates of the second square on the sheet of width 10. *)
Definition second_square_candidates : list (position shape) :=
  Eval vm_compute in
    match candidates Python3 3 10 1 1 1 one_square_w10 square with
    | Return l => l
    | _ => []
    end.

(** What line 123 records for a second square in column 3 of the sheet of
    width 10, where it touches the first square along an edge. *)
Definition square_in_column_3 : position shape :=
  Eval vm_compute in
    match try_column 3 1 1 one_square_w10 0 square [] 3 with
    | Return [d] => d
    | _ => {| pos_orientation := 0; pos_x := 0; pos_yoff := 0; pos_maxy := 0; pos_geom := [] |}
    end.

(** The placement committed for [gamma] on that sheet. *)
Definition gamma_placement : position shape :=
  Eval vm_compute in
    match placements three_pieces_w4 !! 2%nat with
    | Some d => d
    | None => {| pos_orientation := 0; pos_x := 0; pos_yoff := 0; pos_maxy := 0;
                 pos_geom := [] |}
    end.










(** A sheet of width 4 with a vertical step of -1: the locals after one
    square, then two. *)
Definition one_square_down_w4 : locals shape :=
  Eval vm_compute in locals_of (tetris_pack_run Python3 3 4 1 (- (1)) 1 [square]).

Definition two_squares_down_w4 : locals shape :=
  Eval vm_compute in locals_of (tetris_pack_run Python3 3 4 1 (- (1)) 1 [square; square]).

End Sheets.

(** ** Notions used to state the properties *)

(** The heights tried by the loop of line 119 and the shapes it tests: the
    shape it was given first, then [geom_xshifted] moved to the k-th height. *)
Definition probe_yoff (stepy yoff : Q) (k : nat) : Q :=
  Nat.iter k (fun y => y + stepy) yoff.

Definition probe {G : Type} `{Geometry G} (stepy : Q) (geom_xshifted : G) (yoff : Q)
    (geom_yshifted : G) (k : nat) : G :=
  match k with
  | O => geom_yshifted
  | S _ => affinity_translate geom_xshifted 0 (probe_yoff stepy yoff k)
  end.

(** The order of the keys [(maxy, x)]. *)
Definition key_lt (a b : Q * Z) : Prop :=
  fst a < fst b \/ (fst a == fst b /\ (snd a < snd b)%Z).

Definition key_le (a b : Q * Z) : Prop :=
  fst a < fst b \/ (fst a == fst b /\ (snd a <= snd b)%Z).

(** The (orientation, column) pairs in the order the two [for] loops of
    lines 112 and 115 visit them. *)
Definition enumeration {G : Type} `{Geometry G} (py : python) (width stepx : Q)
    (nb_orientations : Z) (geom : G) : list (Z * Z) :=
  flat_map
    (fun i => map (pair i)
       (columns width stepx (affinity_rotate geom (rotation_angle py nb_orientations i))))
    (py_range 0 nb_orientations).

(** No water level went down from [l] to [l']. *)
Definition levels_le (l l' : list Q) : Prop := Forall2 Qle l l'.

(** Two shapes without a common point. *)
Definition apart {G : Type} `{Geometry G} (g h : G) : Prop :=
  forall x y, ~ (covers g x y /\ covers h x y).

Definition pairwise_apart {G : Type} `{Geometry G} (l : list (position G)) : Prop :=
  forall i j di dj, i <> j -> l !! i = Some di -> l !! j = Some dj ->
    apart (pos_geom di) (pos_geom dj).

(** The structure that the loop of line 119 queries covers all the
    geometries committed so far. *)
Definition occupancy_covers_placements {G : Type} `{Geometry G} (st : locals G) : Prop :=
  forall d, d ∈ placements st ->
    forall x y, covers (pos_geom d) x y -> covers (simplified_result st) x y.

(** One of the subscripts [xs] names entry [k] of the list [l]. *)
Definition names_entry {A : Type} (l : list A) (xs : list Z) (k : nat) : bool :=
  existsb (fun x => bool_decide (py_index l x = Some k)) xs.

(** What line 123 records for column [x] of the rotated piece. *)
Definition recorded {G : Type} `{Geometry G} (stepx stepy : Q) (fuel : nat)
    (st : locals G) (i : Z) (geom_rotated : G) (x : Z) (d : position G) : Prop :=
  let '(minx, miny, maxx, maxy) := geom_bounds geom_rotated in
  let geom_xshifted := affinity_translate geom_rotated (inject_Z x * stepx) (- miny) in
  pos_orientation d = i /\ pos_x d = x /\
  pos_maxy d = pos_yoff d + maxy - miny /\
  exists w, py_getitem (starting_yoffs st) x = Return w /\
    move_up stepy fuel (simplified_result st) geom_xshifted w geom_xshifted
    = Return (pos_yoff d, pos_geom d).

(** The bounding box is wider than the sheet. *)
Definition too_wide {G : Type} `{Geometry G} (width : Q) (g : G) : Prop :=
  let '(minx, _, maxx, _) := geom_bounds g in width < maxx - minx.

(** ** The rest of the script: the shapes, the pieces, the SVG clean-up *)

(** [l * n] on a list: [n] copies of [l] one after the other, none when
    [n] is not positive. *)
Definition py_list_mul {A : Type} (l : list A) (n : Z) : list A :=
  concat (replicate (Z.to_nat n) l).

(** Line 66, the second assignment to [proportions] (the one of line 65 is
    overwritten before any use). *)
Definition proportions : list Z := [9; 23; 6; 4; 15; 3; 4]%Z.

Section Shapes.
Context {G : Type} `{Geometry G}.

(** [branch] (lines 49-50) is a buffered segment, [lozenge_fat] and
    [lozenge_slim] (lines 78-87) are intersections of two bands: shapely
    computes them, here they are given. *)
Variables branch lozenge_fat lozenge_slim : G.

(** Lines 56-60: one turn of the loop of [spacer], on the pair
    [(angle, branches)]. *)
Definition spacer_step (acc : Z * G) (angle_incr : Z) : Z * G :=
  let angle := (fst acc + angle_incr * 36)%Z in
  let rotated_branch := affinity_rotate branch (inject_Z angle) in
  (angle, geom_union (snd acc) rotated_branch).

(** Lines 52-61.  [Polygon(branch)] copies [branch]. *)
Definition spacer (angles : list Z) : G :=
  snd (fold_left spacer_step angles (0%Z, branch)).

(** Lines 67-74. *)
Definition spacers (nb_repetitions : Z) : list G :=
  py_list_mul (py_list_mul [spacer [4; 4; 2]%Z] (proportions !!! 0%nat)) nb_repetitions
  ++ py_list_mul (py_list_mul [spacer [3; 3; 4]%Z] (proportions !!! 1%nat)) nb_repetitions
  ++ py_list_mul (py_list_mul [spacer [4; 2; 2; 2]%Z] (proportions !!! 2%nat)) nb_repetitions
  ++ py_list_mul (py_list_mul [spacer [2; 2; 2; 2; 2]%Z] (proportions !!! 3%nat)) nb_repetitions
  ++ py_list_mul (py_list_mul [spacer [1; 2; 1; 3; 3]%Z] (proportions !!! 4%nat)) nb_repetitions
  ++ py_list_mul (py_list_mul [spacer [1; 1; 2; 2; 2; 2]%Z] (proportions !!! 5%nat))
       nb_repetitions
  ++ py_list_mul (py_list_mul [spacer [1; 1; 2; 1; 1; 2; 2]%Z] (proportions !!! 6%nat))
       nb_repetitions.

(** Lines 89-90. *)
Definition lozenges (nb_repetitions : Z) : list G :=
  py_list_mul [lozenge_fat] nb_repetitions ++ py_list_mul [lozenge_slim] nb_repetitions.

(** Line 143: the pieces, before line 144 shuffles them. *)
Definition to_place (nb_repetitions_lozenges nb_repetitions_spacers : Z) : list G :=
  lozenges nb_repetitions_lozenges ++ spacers nb_repetitions_spacers.

End Shapes.

(** The angles at which [spacer] adds a copy of the branch: 36 degrees
    times the running sums of the increments. *)
Fixpoint running_angles (angle : Z) (angles : list Z) : list Z :=
  match angles with
  | [] => []
  | angle_incr :: rest =>
      (angle + angle_incr * 36)%Z :: running_angles (angle + angle_incr * 36)%Z rest
  end.

(** An element of [xml.etree.ElementTree]: tag, attributes, text, tail and
    children. *)
#[warnings="-register-all"]
Inductive element :=
  Element (el_tag : string) (el_attrib : gmap string string) (el_text el_tail : string)
          (el_children : list element).

Definition tag (e : element) : string := let 'Element t _ _ _ _ := e in t.
Definition attrib (e : element) : gmap string string := let 'Element _ a _ _ _ := e in a.
Definition text (e : element) : string := let 'Element _ _ x _ _ := e in x.
Definition tail_text (e : element) : string := let 'Element _ _ _ x _ := e in x.
Definition children (e : element) : list element := let 'Element _ _ _ _ c := e in c.

(** Lines 161-164: the four assignments to [x.attrib]. *)
Definition set_cutter_attributes (x : element) : element :=
  let 'Element t a tx tl c := x in
  Element t
    (<["stroke" := "#ff0000"]> (<["opacity" := "1"]> (<["stroke-width" := "1"]>
       (<["fill" := "#ffffff"]> a))))
    tx tl c.

(** Lines 160-164: [xml.findall('path')] yields the children of [xml] that
    are tagged [path], not [xml] itself and not deeper descendants; each is
    updated in place. *)
Definition fix_svg_element (xml : element) : element :=
  let 'Element t a tx tl c := xml in
  Element t a tx tl
    (map (fun x => if decide (tag x = "path") then set_cutter_attributes x else x) c).

(** Lines 156-165.  Parsing ([ET.fromstring], which may fail) and printing
    ([ET.tostring]) are ElementTree's. *)
Definition fix_svg (fromstring : string -> option element) (tostring : element -> string)
    (svg : string) : option string :=
  xml ← fromstring svg; Some (tostring (fix_svg_element xml)).

(** ** More notions used to state properties *)

(** More of what shapely documents: a shape is a set of points that does
    not tell two names of one number apart, a translation moves every
    point, a shape lies within its bounds, and a polygon does not reach
    above all of its corners. *)
Class PlaneLaws (G : Type) `{Geometry G} : Prop := {
  covers_compat : forall (g : G) x y x' y',
    x == x' -> y == y' -> covers g x y -> covers g x' y';
  covers_translate : forall (g : G) dx dy x y,
    covers (affinity_translate g dx dy) x y <-> covers g (x - dx) (y - dy);
  covers_bounds : forall (g : G) x y,
    covers g x y ->
    minx_of g <= x /\ x <= maxx_of g /\ miny_of g <= y /\ y <= maxy_of g;
  covers_Polygon : forall points x y,
    covers (Polygon points) x y -> exists p, p ∈ points /\ y <= snd p;
}.

(** The accounts that the locals keep of the committed pieces: their
    number, the union of their geometries, the running maximum of their
    top edges. *)
Definition accounts_agree {G : Type} `{Geometry G} (st : locals G) : Prop :=
  nb_placed st = Z.of_nat (length (placements st)) /\
  (forall x y, covers (result st) x y <->
     exists d, d ∈ placements st /\ covers (pos_geom d) x y) /\
  (forall x y, covers (result st) x y -> covers (simplified_result st) x y) /\
  0 <= global_maxy st /\
  (forall d, d ∈ placements st -> maxy_of (pos_geom d) <= global_maxy st).

(** The precondition of the docstring, "geoms must have their branches
    meeting at (0,0)": the pivot belongs to every piece, in every
    orientation that is tried. *)
Definition pivot_inside {G : Type} `{Geometry G} (py : python) (nb_orientations : Z)
    (geoms : list G) : Prop :=
  forall g, g ∈ geoms -> forall i, (0 <= i < nb_orientations)%Z ->
    covers (affinity_rotate g (rotation_angle py nb_orientations i)) 0 0.

(** Every piece has points, in every orientation that is tried. *)
Definition never_empty {G : Type} `{Geometry G} (py : python) (nb_orientations : Z)
    (geoms : list G) : Prop :=
  forall g, g ∈ geoms -> forall i, (0 <= i < nb_orientations)%Z ->
    exists x y, covers (affinity_rotate g (rotation_angle py nb_orientations i)) x y.

(** ** Basic facts: outcomes, loops, subscripts *)

Lemma bind_Return {A B : Type} (m : outcome A) (f : A -> outcome B) (b : B) :
  (m ≫= f) = Return b -> exists a, m = Return a /\ f a = Return b.
Proof. destruct m as [a| |]; simpl; intros E; try discriminate. eauto. Qed.

Section Basics.
Context {A S : Type}.

Lemma for_each_app (body : S -> A -> outcome S) (l l' : list A) (s : S) :
  for_each body (l ++ l') s = (for_each body l s ≫= for_each body l').
Proof.
  revert s. induction l as [|a l IH]; intros s; simpl; [reflexivity|].
  destruct (body s a) as [s'| |]; simpl; auto.
Qed.

(** A property kept by every iteration is kept by the loop. *)
Lemma for_each_invariant (P : S -> Prop) (body : S -> A -> outcome S) (l : list A) :
  (forall s a s', a ∈ l -> P s -> body s a = Return s' -> P s') ->
  forall s s', P s -> for_each body l s = Return s' -> P s'.
Proof.
  induction l as [|a l IH]; intros Hb s s' Hs E; simpl in E.
  - congruence.
  - apply bind_Return in E as (s1 & E1 & E2).
    eapply IH; [| |exact E2].
    + intros; eapply Hb; eauto. by right.
    + eapply Hb; eauto. by left.
Qed.

Lemma py_index_lt (l : list A) (x : Z) (k : nat) :
  py_index l x = Some k -> (k < length l)%nat.
Proof.
  unfold py_index. cbv zeta.
  destruct ((0 <=? x) && (x <? Z.of_nat (length l)))%Z eqn:E1.
  - intros E. injection E as <-. lia.
  - destruct ((- Z.of_nat (length l) <=? x) && (x <? 0))%Z eqn:E2; [|discriminate].
    intros E. injection E as <-. lia.
Qed.

Lemma py_getitem_Return (l : list A) (x : Z) (a : A) :
  py_getitem l x = Return a <-> exists k, py_index l x = Some k /\ l !! k = Some a.
Proof.
  unfold py_getitem. split.
  - destruct (py_index l x) as [k|]; [|discriminate].
    destruct (l !! k) eqn:E; [|discriminate]. intros E'. injection E' as ->. eauto.
  - intros (k & -> & ->). reflexivity.
Qed.

Lemma py_setitem_Return (l l' : list A) (x : Z) (a : A) :
  py_setitem l x a = Return l' <-> exists k, py_index l x = Some k /\ l' = <[k:=a]> l.
Proof.
  unfold py_setitem. split.
  - destruct (py_index l x) as [k|]; [|discriminate]. intros E'. injection E' as <-. eauto.
  - intros (k & -> & ->). reflexivity.
Qed.

End Basics.

Lemma py_range_elem (a b x : Z) : x ∈ py_range a b <-> (a <= x < b)%Z.
Proof.
  unfold py_range. rewrite list_elem_of_In, in_map_iff. split.
  - intros (k & <- & Hk). apply in_seq in Hk. lia.
  - intros Hx. exists (Z.to_nat (x - a)). split; [lia|]. apply in_seq. lia.
Qed.

Lemma py_range_empty (a b : Z) : (b <= a)%Z -> py_range a b = [].
Proof. intros Hab. unfold py_range. replace (Z.to_nat (b - a)) with O by lia. reflexivity. Qed.

Lemma py_max_le_l (a b : Q) : a <= py_max a b.
Proof.
  unfold py_max. destruct (Qle_bool b a) eqn:E; [apply Qle_refl|].
  destruct (Qlt_le_dec a b) as [Hlt|Hle]; [by apply Qlt_le_weak|].
  apply Qle_bool_iff in Hle. congruence.
Qed.

Lemma py_max_le_r (a b : Q) : b <= py_max a b.
Proof.
  unfold py_max. destruct (Qle_bool b a) eqn:E; [by apply Qle_bool_iff|apply Qle_refl].
Qed.

(** ** The vertical search (lines 119-122) *)

Section MoveUp.
Context {G : Type} `{Geometry G}.
Variable stepy : Q.
Variables occupied geom_xshifted : G.

Lemma probe_shift (yoff : Q) (g : G) (k : nat) :
  probe stepy geom_xshifted (yoff + stepy)
        (affinity_translate geom_xshifted 0 (yoff + stepy)) k
  = probe stepy geom_xshifted yoff g (S k).
Proof.
  destruct k as [|k]; unfold probe, probe_yoff.
  - reflexivity.
  - by rewrite (Nat.iter_succ_r (S k)).
Qed.

Lemma move_up_Return (n : nat) (yoff : Q) (g : G) (y : Q) (g' : G) :
  move_up stepy n occupied geom_xshifted yoff g = Return (y, g') <->
  exists k, (k <= n)%nat /\
    (forall j, (j < k)%nat ->
       geom_intersects occupied (probe stepy geom_xshifted yoff g j) = true) /\
    geom_intersects occupied (probe stepy geom_xshifted yoff g k) = false /\
    y = probe_yoff stepy yoff k /\ g' = probe stepy geom_xshifted yoff g k.
Proof.
  revert yoff g. induction n as [|n IH]; intros yoff g; simpl.
  - destruct (geom_intersects occupied g) eqn:E; split.
    + discriminate.
    + intros (k & Hk & _ & Hfree & _). replace k with O in Hfree by lia.
      simpl in Hfree. congruence.
    + intros [= <- <-]. exists O. repeat split; auto. intros j Hj; lia.
    + intros (k & Hk & _ & _ & -> & ->). replace k with O by lia. reflexivity.
  - destruct (geom_intersects occupied g) eqn:E; split.
    + intros (k & Hk & Hbusy & Hfree & -> & ->)%IH.
      exists (S k). split; [lia|]. split; [|split; [|split]].
      * intros [|j] Hj; [exact E|]. rewrite <- probe_shift. apply Hbusy. lia.
      * by rewrite <- probe_shift.
      * unfold probe_yoff. by rewrite Nat.iter_succ_r.
      * by rewrite <- probe_shift.
    + intros (k & Hk & Hbusy & Hfree & -> & ->).
      destruct k as [|k]; [simpl in Hfree; congruence|].
      apply IH. exists k. split; [lia|]. split; [|split; [|split]].
      * intros j Hj. rewrite (probe_shift yoff g). apply Hbusy. lia.
      * by rewrite (probe_shift yoff g).
      * unfold probe_yoff. by rewrite Nat.iter_succ_r.
      * by rewrite (probe_shift yoff g).
    + intros [= <- <-]. exists O. repeat split; auto; [lia|]. intros j Hj; lia.
    + intros (k & Hk & Hbusy & Hfree & -> & ->).
      destruct k as [|k]; [reflexivity|].
      specialize (Hbusy O ltac:(lia)). simpl in Hbusy. congruence.
Qed.

Lemma move_up_OutOfFuel (n : nat) (yoff : Q) (g : G) :
  move_up stepy n occupied geom_xshifted yoff g = OutOfFuel <->
  forall j, (j <= n)%nat ->
    geom_intersects occupied (probe stepy geom_xshifted yoff g j) = true.
Proof.
  revert yoff g. induction n as [|n IH]; intros yoff g; simpl.
  - destruct (geom_intersects occupied g) eqn:E; split; auto.
    + intros _ j Hj. replace j with O by lia. exact E.
    + discriminate.
    + intros Hbusy. specialize (Hbusy O ltac:(lia)). simpl in Hbusy. congruence.
  - destruct (geom_intersects occupied g) eqn:E; split.
    + intros Hout [|j] Hj; [exact E|].
      rewrite <- probe_shift. eapply IH; [exact Hout|lia].
    + intros Hbusy. apply IH. intros j Hj. rewrite (probe_shift yoff g). apply Hbusy. lia.
    + discriminate.
    + intros Hbusy. specialize (Hbusy O ltac:(lia)). simpl in Hbusy. congruence.
Qed.

Lemma move_up_no_Raise (n : nat) (yoff : Q) (g : G) (e : exn) :
  move_up stepy n occupied geom_xshifted yoff g <> Raise e.
Proof.
  revert yoff g. induction n as [|n IH]; intros yoff g; simpl;
    destruct (geom_intersects occupied g); try discriminate. apply IH.
Qed.

(** A shape that is handed back was tested last, and was free. *)
Lemma move_up_free (n : nat) (yoff : Q) (g : G) (y : Q) (g' : G) :
  move_up stepy n occupied geom_xshifted yoff g = Return (y, g') ->
  geom_intersects occupied g' = false.
Proof. intros (k & _ & _ & Hfree & _ & ->)%move_up_Return. exact Hfree. Qed.

(** More fuel does not change an answer that was reached. *)
Lemma move_up_fuel (n n' : nat) (yoff : Q) (g : G) :
  (n <= n')%nat ->
  move_up stepy n occupied geom_xshifted yoff g <> OutOfFuel ->
  move_up stepy n' occupied geom_xshifted yoff g
  = move_up stepy n occupied geom_xshifted yoff g.
Proof.
  intros Hn Hdone.
  destruct (move_up stepy n occupied geom_xshifted yoff g) as [[y g']|e|] eqn:E.
  - apply move_up_Return. apply move_up_Return in E as (k & Hk & Hrest).
    exists k. split; [lia|exact Hrest].
  - by apply move_up_no_Raise in E.
  - congruence.
Qed.

End MoveUp.

(** ** Loops that append to a list, loops run with more fuel *)

Section Loops.
Context {A D S : Type}.

Lemma for_each_appends (R : A -> D -> Prop) (body : list D -> A -> outcome (list D))
    (xs : list A) :
  (forall l a l', a ∈ xs -> body l a = Return l' -> exists d, l' = l ++ [d] /\ R a d) ->
  forall l l', for_each body xs l = Return l' ->
    exists ds, l' = l ++ ds /\ Forall2 R xs ds.
Proof.
  induction xs as [|a xs IH]; intros Hbody l l' E; simpl in E.
  - injection E as <-. exists []. by rewrite app_nil_r.
  - apply bind_Return in E as (l1 & E1 & E2).
    apply Hbody in E1 as (d & -> & Hd); [|by left].
    apply IH in E2 as (ds & -> & Hds); [|intros; eapply Hbody; eauto; by right].
    exists (d :: ds). rewrite <- app_assoc. split; [reflexivity|by constructor].
Qed.

Lemma for_each_appends_lists {B : Type} (R : A -> B -> D -> Prop) (inner : A -> list B)
    (body : list D -> A -> outcome (list D)) (xs : list A) :
  (forall l a l', body l a = Return l' ->
     exists ds, l' = l ++ ds /\ Forall2 (R a) (inner a) ds) ->
  forall l l', for_each body xs l = Return l' ->
    exists ds, l' = l ++ ds /\
      Forall2 (fun p d => R (fst p) (snd p) d)
              (flat_map (fun a => map (pair a) (inner a)) xs) ds.
Proof.
  intros Hbody. induction xs as [|a xs IH]; intros l l' E; simpl in E.
  - injection E as <-. exists []. rewrite app_nil_r. split; [reflexivity|constructor].
  - apply bind_Return in E as (l1 & E1 & E2).
    apply Hbody in E1 as (ds1 & -> & Hds1).
    apply IH in E2 as (ds2 & -> & Hds2).
    exists (ds1 ++ ds2). rewrite <- app_assoc. split; [reflexivity|].
    simpl. apply Forall2_app; [|exact Hds2].
    clear -Hds1. induction Hds1; simpl; constructor; auto.
Qed.

Lemma for_each_more_fuel (body body' : S -> A -> outcome S) (l : list A) :
  (forall s a, body s a <> OutOfFuel -> body' s a = body s a) ->
  forall s, for_each body l s <> OutOfFuel -> for_each body' l s = for_each body l s.
Proof.
  intros Hbody. induction l as [|a l IH]; intros s Hdone; simpl in *; [reflexivity|].
  destruct (body s a) as [s'| |] eqn:E.
  - rewrite Hbody, E by congruence. simpl. by apply IH.
  - by rewrite Hbody, E by congruence.
  - by destruct Hdone.
Qed.

End Loops.

(** ** The candidates of one piece (lines 111-123) *)

Section Candidates.
Context {G : Type} `{Geometry G}.
Variable py : python.
Variables width stepx stepy : Q.
Variable nb_orientations : Z.

(** A recorded height is the column's water level raised by some number
    of steps. *)
Lemma recorded_level fuel st i geom_rotated x d :
  recorded stepx stepy fuel st i geom_rotated x d ->
  exists k w j, py_index (starting_yoffs st) (pos_x d) = Some k /\
    starting_yoffs st !! k = Some w /\ pos_yoff d = probe_yoff stepy w j.
Proof.
  unfold recorded. destruct (geom_bounds geom_rotated) as [[[minx miny] maxx] maxy].
  intros (_ & -> & _ & w & (k & Hk & Hw)%py_getitem_Return & Hup).
  apply move_up_Return in Hup as (j & _ & _ & _ & Hy & _). eauto 10.
Qed.

Lemma recorded_free fuel st i geom_rotated x d :
  recorded stepx stepy fuel st i geom_rotated x d ->
  geom_intersects (simplified_result st) (pos_geom d) = false.
Proof.
  unfold recorded. destruct (geom_bounds geom_rotated) as [[[minx miny] maxx] maxy].
  intros (_ & _ & _ & w & _ & Hup). by apply move_up_free in Hup.
Qed.

Lemma try_column_Return fuel st i geom_rotated l x l' :
  try_column fuel stepx stepy st i geom_rotated l x = Return l' ->
  exists d, l' = l ++ [d] /\ recorded stepx stepy fuel st i geom_rotated x d.
Proof.
  unfold try_column, recorded.
  destruct (geom_bounds geom_rotated) as [[[minx miny] maxx] maxy].
  intros (w & Ew & E)%bind_Return.
  apply bind_Return in E as ([y g] & Eup & E). injection E as <-.
  eexists. split; [reflexivity|]. simpl. eauto 10.
Qed.

Lemma try_orientation_Return fuel st geom l i l' :
  try_orientation py fuel width stepx stepy nb_orientations st geom l i = Return l' ->
  exists ds, l' = l ++ ds /\
    Forall2
      (recorded stepx stepy fuel st i
         (affinity_rotate geom (rotation_angle py nb_orientations i)))
      (columns width stepx (affinity_rotate geom (rotation_angle py nb_orientations i))) ds.
Proof.
  unfold try_orientation. apply for_each_appends.
  intros l0 x l0' _. apply try_column_Return.
Qed.

Lemma candidates_Return fuel st geom l :
  candidates py fuel width stepx stepy nb_orientations st geom = Return l ->
  Forall2 (fun p d =>
             recorded stepx stepy fuel st (fst p)
               (affinity_rotate geom (rotation_angle py nb_orientations (fst p))) (snd p) d)
    (enumeration py width stepx nb_orientations geom) l.
Proof.
  unfold candidates, enumeration. intros E.
  apply (for_each_appends_lists
           (fun i x d => recorded stepx stepy fuel st i
              (affinity_rotate geom (rotation_angle py nb_orientations i)) x d)
           (fun i => columns width stepx
              (affinity_rotate geom (rotation_angle py nb_orientations i)))) in E
    as (ds & -> & Hds); [exact Hds|].
  intros l0 i l0'. apply try_orientation_Return.
Qed.

(** Every candidate was accepted by a test that found it free. *)
Lemma candidates_free fuel st geom l d :
  candidates py fuel width stepx stepy nb_orientations st geom = Return l ->
  d ∈ l -> geom_intersects (simplified_result st) (pos_geom d) = false.
Proof.
  intros Hl%candidates_Return Hd.
  apply list_elem_of_lookup in Hd as [k Hk].
  destruct (Forall2_lookup_r _ _ _ _ _ Hl Hk) as ([i x] & _ & Hrec).
  by apply recorded_free in Hrec.
Qed.

(** The candidates come in the order of the two loops. *)
Lemma candidates_order fuel st geom l :
  candidates py fuel width stepx stepy nb_orientations st geom = Return l ->
  map (fun d => (pos_orientation d, pos_x d)) l
  = enumeration py width stepx nb_orientations geom.
Proof.
  intros Hl%candidates_Return. induction Hl as [|[i x] d ps ds Hrec _ IH]; [reflexivity|].
  simpl. rewrite IH. f_equal. unfold recorded in Hrec.
  destruct (geom_bounds _) as [[[minx miny] maxx] maxy].
  by destruct Hrec as (-> & -> & _).
Qed.

Lemma try_column_fuel fuel fuel' st i geom_rotated l x :
  (fuel <= fuel')%nat ->
  try_column fuel stepx stepy st i geom_rotated l x <> OutOfFuel ->
  try_column fuel' stepx stepy st i geom_rotated l x
  = try_column fuel stepx stepy st i geom_rotated l x.
Proof.
  unfold try_column. intros Hfuel.
  destruct (geom_bounds geom_rotated) as [[[minx miny] maxx] maxy].
  destruct (py_getitem (starting_yoffs st) x) as [w| |]; simpl; auto.
  intros Hdone. rewrite (move_up_fuel stepy _ _ fuel fuel'); auto.
  intros E. apply Hdone. by rewrite E.
Qed.

Lemma candidates_fuel fuel fuel' st geom :
  (fuel <= fuel')%nat ->
  candidates py fuel width stepx stepy nb_orientations st geom <> OutOfFuel ->
  candidates py fuel' width stepx stepy nb_orientations st geom
  = candidates py fuel width stepx stepy nb_orientations st geom.
Proof.
  intros Hfuel. unfold candidates. apply for_each_more_fuel.
  intros l i. unfold try_orientation. apply for_each_more_fuel.
  intros l0 x. by apply try_column_fuel.
Qed.

Lemma try_orientation_none fuel st geom l i :
  columns width stepx (affinity_rotate geom (rotation_angle py nb_orientations i)) = [] ->
  try_orientation py fuel width stepx stepy nb_orientations st geom l i = Return l.
Proof. unfold try_orientation. by intros ->. Qed.

(** No feasible column in any orientation: nothing is recorded, whatever
    the fuel and the state. *)
Lemma candidates_none fuel st geom :
  (forall i, (0 <= i < nb_orientations)%Z ->
     columns width stepx (affinity_rotate geom (rotation_angle py nb_orientations i)) = []) ->
  candidates py fuel width stepx stepy nb_orientations st geom = Return [].
Proof.
  intros Hnone. unfold candidates.
  assert (Hall : forall i, i ∈ py_range 0 nb_orientations ->
            columns width stepx
              (affinity_rotate geom (rotation_angle py nb_orientations i)) = []).
  { intros i Hi%py_range_elem. by apply Hnone. }
  revert Hall. generalize (py_range 0 nb_orientations) as orientations.
  induction orientations as [|i rest IH]; intros Hall; [reflexivity|].
  cbn [for_each]. rewrite try_orientation_none by (apply Hall; by left).
  apply IH. intros; apply Hall. by right.
Qed.

End Candidates.

(** ** The choice of the best position (line 124) *)

Lemma key_ltb_spec (a b : Q * Z) : key_ltb a b = true <-> key_lt a b.
Proof.
  destruct a as [m x], b as [m' x']. unfold key_ltb, key_lt. simpl.
  destruct (Qeq_bool m m') eqn:E.
  - apply Qeq_bool_iff in E. rewrite Z.ltb_lt. split; [by right|].
    intros [Hlt|[_ Hx]]; [lra|exact Hx].
  - apply Qeq_bool_neq in E. rewrite negb_true_iff, <- not_true_iff_false, Qle_bool_iff.
    split; [intros Hm; left; lra|]. intros [Hlt|[Heq _]]; [lra|contradiction].
Qed.

Lemma key_le_refl (a : Q * Z) : key_le a a.
Proof. right. split; [reflexivity|lia]. Qed.

Lemma key_not_lt_le (a b : Q * Z) : ~ key_lt a b -> key_le b a.
Proof.
  destruct a as [m x], b as [m' x']. unfold key_lt, key_le. simpl. intros Hn.
  destruct (Q_dec m m') as [[Hlt|Hgt]|Heq].
  - destruct Hn. by left.
  - by left.
  - right. split; [by symmetry|]. destruct (Z.lt_ge_cases x x'); [|lia].
    destruct Hn. by right.
Qed.

Lemma key_lt_le_trans (a b c : Q * Z) : key_lt a b -> key_le b c -> key_lt a c.
Proof.
  destruct a as [m x], b as [m' x'], c as [m'' x'']. unfold key_lt, key_le. simpl.
  intros [H1|[H1 H1']] [H2|[H2 H2']]; try (left; lra). right. split; [lra|lia].
Qed.

Lemma key_lt_le (a b : Q * Z) : key_lt a b -> key_le a b.
Proof.
  unfold key_lt, key_le. intros [Hlt|[Heq Hx]]; [by left|right; split; [exact Heq|lia]].
Qed.

Section Selection.
Context {G : Type}.

(** [min] hands back the first of the items with the smallest key. *)
Lemma min_from_first (best : position G) (l : list (position G)) :
  exists l1 l2, best :: l = l1 ++ min_from best l :: l2 /\
    (forall d, d ∈ l1 -> key_lt (key (min_from best l)) (key d)) /\
    (forall d, d ∈ l2 -> key_le (key (min_from best l)) (key d)).
Proof.
  revert best. induction l as [|d l IH]; intros best; simpl.
  - exists [], []. split; [reflexivity|]. split; intros d Hd; by apply elem_of_nil in Hd.
  - destruct (key_ltb (key d) (key best)) eqn:E.
    + apply key_ltb_spec in E.
      destruct (IH d) as (l1 & l2 & Hsplit & Hl1 & Hl2).
      set (m := min_from d l) in *.
      assert (Hmd : key_le (key m) (key d)).
      { destruct l1 as [|d' l1]; injection Hsplit as <- _;
          [apply key_le_refl|apply key_lt_le, Hl1; by left]. }
      exists (best :: l1), l2. split; [by rewrite Hsplit|]. split; [|exact Hl2].
      intros d' [->|Hd']%elem_of_cons; [|by apply Hl1].
      destruct Hmd as [Hlt|[Heq Hx]]; destruct E as [Hlt'|[Heq' Hx']];
        unfold key_lt; try (left; lra). right. split; [lra|lia].
    + assert (Hle : key_le (key best) (key d)).
      { apply key_not_lt_le. rewrite <- key_ltb_spec. congruence. }
      destruct (IH best) as (l1 & l2 & Hsplit & Hl1 & Hl2).
      set (m := min_from best l) in *.
      destruct l1 as [|b l1]; injection Hsplit as Hhead Htail.
      * exists [], (d :: l2). rewrite <- Hhead in *. split; [by rewrite Htail|].
        split; [intros d' Hd'; by apply elem_of_nil in Hd'|].
        intros d' [->|Hd']%elem_of_cons; [exact Hle|by apply Hl2].
      * subst b. exists (best :: d :: l1), l2. split; [by rewrite Htail|].
        split; [|exact Hl2].
        intros d' [->|[->|Hd']%elem_of_cons]%elem_of_cons.
        -- apply Hl1. by left.
        -- eapply key_lt_le_trans; [apply Hl1; by left|exact Hle].
        -- apply Hl1. by right.
Qed.

Lemma py_min_first (l : list (position G)) (best : position G) :
  py_min l = Return best ->
  exists l1 l2, l = l1 ++ best :: l2 /\
    (forall d, d ∈ l1 -> key_lt (key best) (key d)) /\
    (forall d, d ∈ l2 -> key_le (key best) (key d)).
Proof.
  destruct l as [|d l]; simpl; [discriminate|]. intros E. injection E as <-.
  apply min_from_first.
Qed.

Lemma py_min_elem (l : list (position G)) (best : position G) :
  py_min l = Return best -> best ∈ l.
Proof.
  intros (l1 & l2 & -> & _)%py_min_first. apply elem_of_app. right. by left.
Qed.

End Selection.

(** ** Water levels *)

Lemma levels_le_refl (l : list Q) : levels_le l l.
Proof. apply Forall_Forall2_diag, Forall_forall. intros; apply Qle_refl. Qed.

Lemma levels_le_trans (l1 l2 l3 : list Q) :
  levels_le l1 l2 -> levels_le l2 l3 -> levels_le l1 l3.
Proof. apply Forall2_trans. intros x y z; apply Qle_trans. Qed.

Lemma levels_le_insert (l : list Q) (k : nat) (y v : Q) :
  l !! k = Some y -> y <= v -> levels_le l (<[k:=v]> l).
Proof.
  intros Hk Hv. rewrite <- (list_insert_id l k y Hk) at 1.
  apply Forall2_insert; [apply levels_le_refl|exact Hv].
Qed.

Lemma levels_le_lookup (l l' : list Q) (k : nat) (a b : Q) :
  levels_le l l' -> l !! k = Some a -> l' !! k = Some b -> a <= b.
Proof. intros Hl Ha Hb. exact (Forall2_lookup_lr _ _ _ _ _ _ Hl Ha Hb). Qed.

Lemma probe_yoff_ge (stepy w : Q) (k : nat) : 0 <= stepy -> w <= probe_yoff stepy w k.
Proof.
  intros Hstep. unfold probe_yoff. induction k as [|k IH]; simpl; [apply Qle_refl|lra].
Qed.

(** Line 134 writes the larger of the old level and [miny]. *)
Lemma raise_level_Return (miny : Q) (yoffs yoffs' : list Q) (x : Z) :
  raise_level miny yoffs x = Return yoffs' <->
  exists k y, py_index yoffs x = Some k /\ yoffs !! k = Some y /\
    yoffs' = <[k:=py_max y miny]> yoffs.
Proof.
  unfold raise_level. split.
  - intros (y & (k & Hk & Hy)%py_getitem_Return & (k' & Hk' & ->)%py_setitem_Return)%bind_Return.
    exists k, y. rewrite Hk in Hk'. by injection Hk' as <-.
  - intros (k & y & Hk & Hy & ->).
    replace (py_getitem yoffs x) with (Return y) by (symmetry; apply py_getitem_Return; eauto).
    simpl. apply py_setitem_Return. eauto.
Qed.

Lemma raise_level_le (miny : Q) (yoffs yoffs' : list Q) (x : Z) :
  raise_level miny yoffs x = Return yoffs' -> levels_le yoffs yoffs'.
Proof.
  intros (k & y & _ & Hy & ->)%raise_level_Return.
  eapply levels_le_insert; [exact Hy|apply py_max_le_l].
Qed.

Lemma raise_levels_le (miny : Q) (xs : list Z) (yoffs yoffs' : list Q) :
  for_each (raise_level miny) xs yoffs = Return yoffs' -> levels_le yoffs yoffs'.
Proof.
  apply (for_each_invariant (levels_le yoffs)); [|apply levels_le_refl].
  intros l x l' _ Hl Hx. eapply levels_le_trans; [exact Hl|]. by apply raise_level_le in Hx.
Qed.

(** ** One piece, then the whole run *)

Section Run.
Context {G : Type} `{Geometry G}.
Variable py : python.
Variables width stepx stepy : Q.
Variable nb_orientations : Z.

Lemma commit_Return (st st' : locals G) (best : position G) :
  commit stepx st best = Return st' ->
  exists yoffs1 yoffs2,
    py_setitem (starting_yoffs st) (pos_x best) (pos_yoff best) = Return yoffs1 /\
    for_each (raise_level (miny_of (pos_geom best)))
      (spanned stepx (minx_of (pos_geom best)) (maxx_of (pos_geom best)))
      yoffs1 = Return yoffs2 /\
    starting_yoffs st' = yoffs2 /\
    placements st' = placements st ++ [best] /\
    result st' = geom_union (result st) (pos_geom best) /\
    simplified_result st' =
      geom_union (geom_union (simplified_result st) (pos_geom best))
        (shadow (minx_of (pos_geom best)) (miny_of (pos_geom best))
                (maxx_of (pos_geom best))).
Proof.
  unfold commit, minx_of, miny_of, maxx_of. intros (yoffs1 & E1 & E)%bind_Return.
  destruct (geom_bounds (pos_geom best)) as [[[minx miny] maxx] maxy].
  apply bind_Return in E as (yoffs2 & E2 & E). injection E as <-.
  exists yoffs1, yoffs2. simpl. auto 10.
Qed.

Lemma pack_piece_Return fuel (st st' : locals G) (geom : G) :
  pack_piece py fuel width stepx stepy nb_orientations st geom = Return st' ->
  exists l best,
    candidates py fuel width stepx stepy nb_orientations st geom = Return l /\
    py_min l = Return best /\ commit stepx st best = Return st'.
Proof.
  unfold pack_piece. intros (l & El & E)%bind_Return.
  apply bind_Return in E as (best & Eb & E). eauto.
Qed.

Lemma pack_piece_fuel fuel fuel' (st : locals G) (geom : G) :
  (fuel <= fuel')%nat ->
  pack_piece py fuel width stepx stepy nb_orientations st geom <> OutOfFuel ->
  pack_piece py fuel' width stepx stepy nb_orientations st geom
  = pack_piece py fuel width stepx stepy nb_orientations st geom.
Proof.
  intros Hfuel Hdone. unfold pack_piece in *.
  rewrite (candidates_fuel py width stepx stepy nb_orientations fuel fuel'); auto.
  intros E. apply Hdone. by rewrite E.
Qed.

Lemma tetris_pack_run_fuel fuel fuel' (geoms : list G) :
  (fuel <= fuel')%nat ->
  tetris_pack_run py fuel width stepx stepy nb_orientations geoms <> OutOfFuel ->
  tetris_pack_run py fuel' width stepx stepy nb_orientations geoms
  = tetris_pack_run py fuel width stepx stepy nb_orientations geoms.
Proof.
  intros Hfuel. unfold tetris_pack_run.
  destruct (initial width stepx) as [st0| |]; simpl; auto.
  apply for_each_more_fuel. intros st geom. by apply pack_piece_fuel.
Qed.

(** A run over [pre ++ post] goes through the end of the run over [pre]. *)
Lemma tetris_pack_run_app fuel (pre post : list G) (st' : locals G) :
  tetris_pack_run py fuel width stepx stepy nb_orientations (pre ++ post) = Return st' ->
  exists st,
    tetris_pack_run py fuel width stepx stepy nb_orientations pre = Return st /\
    for_each (pack_piece py fuel width stepx stepy nb_orientations) post st = Return st'.
Proof.
  unfold tetris_pack_run. intros (st0 & -> & E)%bind_Return. simpl.
  rewrite for_each_app in E. by apply bind_Return in E.
Qed.

(** The chosen column's level is overwritten with a height reached from it
    by steps of [stepy]. *)
Lemma pack_piece_levels fuel (st st' : locals G) (geom : G) :
  0 <= stepy ->
  pack_piece py fuel width stepx stepy nb_orientations st geom = Return st' ->
  exists best yoffs1,
    placements st' = placements st ++ [best] /\
    py_setitem (starting_yoffs st) (pos_x best) (pos_yoff best) = Return yoffs1 /\
    levels_le (starting_yoffs st) yoffs1 /\
    levels_le yoffs1 (starting_yoffs st').
Proof.
  intros Hstep (l & best & Hl & Hbest & Hcommit)%pack_piece_Return.
  apply commit_Return in Hcommit as (yoffs1 & yoffs2 & E1 & E2 & <- & Hp & _).
  exists best, yoffs1. repeat split; auto; [|by apply raise_levels_le in E2].
  apply py_min_elem, list_elem_of_lookup in Hbest as [n Hn].
  apply candidates_Return in Hl.
  destruct (Forall2_lookup_r _ _ _ _ _ Hl Hn) as ([i x] & _ & Hrec).
  apply recorded_level in Hrec as (k & w & j & Hk & Hw & Hy).
  apply py_setitem_Return in E1 as (k' & Hk' & ->).
  rewrite Hk in Hk'. injection Hk' as <-.
  eapply levels_le_insert; [exact Hw|]. rewrite Hy. by apply probe_yoff_ge.
Qed.

Lemma pack_pieces_levels fuel (geoms : list G) (st st' : locals G) :
  0 <= stepy ->
  for_each (pack_piece py fuel width stepx stepy nb_orientations) geoms st = Return st' ->
  levels_le (starting_yoffs st) (starting_yoffs st').
Proof.
  intros Hstep.
  apply (for_each_invariant (fun s => levels_le (starting_yoffs st) (starting_yoffs s)));
    [|apply levels_le_refl].
  intros s geom s' _ Hs (best & yoffs1 & _ & _ & H1 & H2)%pack_piece_levels; [|exact Hstep].
  eauto using levels_le_trans.
Qed.

End Run.

(** ** The rectilinear instance obeys the laws *)

Module RectilinearFacts.
Import Rectilinear.

Lemma rect_intersects_covers (r s : rect) :
  rect_intersects r s = true <-> exists x y, rect_covers r x y /\ rect_covers s x y.
Proof.
  unfold rect_intersects, rect_covers.
  rewrite andb_true_iff, !Qle_bool_iff, !Q.max_lub_iff, !Q.min_glb_iff. split.
  - intros [[[Hx1 Hx2] [Hx3 Hx4]] [[Hy1 Hy2] [Hy3 Hy4]]].
    exists (Qmax (x0 r) (x0 s)), (Qmax (y0 r) (y0 s)).
    rewrite !Q.max_lub_iff.
    pose proof (Q.le_max_l (x0 r) (x0 s)). pose proof (Q.le_max_r (x0 r) (x0 s)).
    pose proof (Q.le_max_l (y0 r) (y0 s)). pose proof (Q.le_max_r (y0 r) (y0 s)).
    tauto.
  - intros (x & y & (? & ? & ? & ?) & (? & ? & ? & ?)).
    repeat split; eapply Qle_trans; eauto.
Qed.

Lemma intersects_covers (g h : shape) :
  intersects g h = true <-> exists x y, shape_covers g x y /\ shape_covers h x y.
Proof.
  unfold intersects, shape_covers. rewrite existsb_exists. split.
  - intros (r & Hr & (s & Hs & (x & y & Hrx & Hsx)%rect_intersects_covers)%existsb_exists).
    apply list_elem_of_In in Hr, Hs. exists x, y. rewrite !Exists_exists.
    split; [exists r|exists s]; by split.
  - intros (x & y & (r & Hr & Hrx)%Exists_exists & (s & Hs & Hsx)%Exists_exists).
    apply list_elem_of_In in Hr, Hs.
    exists r. split; [exact Hr|]. apply existsb_exists.
    exists s. split; [exact Hs|]. apply rect_intersects_covers. eauto.
Qed.

Lemma rect_overlap_disjoint (r s : rect) :
  rect_intersects r s = false -> rect_overlap r s == 0.
Proof.
  unfold rect_intersects, rect_overlap.
  rewrite andb_false_iff, <- !not_true_iff_false, !Qle_bool_iff.
  intros [Hx|Hy].
  - rewrite (Q.max_l 0 (Qmin (x1 r) (x1 s) - Qmax (x0 r) (x0 s))) by lra. ring.
  - rewrite (Q.max_l 0 (Qmin (y1 r) (y1 s) - Qmax (y0 r) (y0 s))) by lra. ring.
Qed.

Lemma overlap_disjoint (g h : shape) :
  (forall x y, ~ (shape_covers g x y /\ shape_covers h x y)) -> overlap g h == 0.
Proof.
  intros Hno.
  assert (Hpair : forall r s, r ∈ g -> s ∈ h -> rect_overlap r s == 0).
  { intros r s Hr Hs. apply rect_overlap_disjoint, not_true_iff_false.
    intros (x & y & Hrx & Hsx)%rect_intersects_covers. apply (Hno x y).
    unfold shape_covers. rewrite !Exists_exists.
    split; [exists r|exists s]; by split. }
  clear Hno. unfold overlap. induction g as [|r g IH]; simpl; [reflexivity|].
  assert (Hrow : forall acc, acc == 0 ->
            fold_right (fun s acc' => rect_overlap r s + acc') acc h == 0).
  { intros acc Hacc.
    assert (Hr : forall s, s ∈ h -> rect_overlap r s == 0)
      by (intros; apply Hpair; [by left|done]).
    clear -Hacc Hr. induction h as [|s h IHh]; simpl; [exact Hacc|].
    rewrite IHh, Hr; [reflexivity|by left|]. intros; apply Hr. by right. }
  apply Hrow, IH. intros; apply Hpair; [by right|done].
Qed.

Lemma rect_join_translate (dx dy : Q) (r r' a : rect) :
  rect_eq r' (rect_translate dx dy r) ->
  rect_eq (rect_join r' (rect_translate dx dy a)) (rect_translate dx dy (rect_join r a)).
Proof.
  unfold rect_eq, rect_join, rect_translate. simpl. intros (E1 & E2 & E3 & E4).
  rewrite E1, E2, E3, E4, !Q.plus_min_distr_r, !Q.plus_max_distr_r. by repeat split.
Qed.

Lemma fold_join_translate (dx dy : Q) (g : shape) (r r' : rect) :
  rect_eq r' (rect_translate dx dy r) ->
  rect_eq (fold_left rect_join (map (rect_translate dx dy) g) r')
          (rect_translate dx dy (fold_left rect_join g r)).
Proof.
  revert r r'. induction g as [|a g IH]; intros r r' Hr; simpl; [exact Hr|].
  apply IH. by apply rect_join_translate.
Qed.

Lemma bounds_translate (g : shape) (dx dy : Q) :
  (exists x y, shape_covers g x y) ->
  let '(minx, miny, maxx, maxy) := bounds g in
  let '(minx', miny', maxx', maxy') := bounds (map (rect_translate dx dy) g) in
  minx' == minx + dx /\ miny' == miny + dy /\ maxx' == maxx + dx /\ maxy' == maxy + dy.
Proof.
  intros (x & y & Hxy). destruct g as [|r g]; [by apply Exists_nil in Hxy|].
  simpl. apply (fold_join_translate dx dy g r). by repeat split.
Qed.

(** The laws, for the rectilinear shapes. *)
Lemma rect_laws : GeometryLaws shape.
Proof.
  split.
  - exact intersects_covers.
  - intros x y Hxy. by apply Exists_nil in Hxy.
  - intros g h x y. apply Exists_app.
  - exact overlap_disjoint.
  - exact bounds_translate.
Qed.

End RectilinearFacts.

(** ** Committed pieces stay apart *)

Section NoOverlap.
Context {G : Type} `{GeometryLaws G}.
Variable py : python.
Variable fuel : nat.
Variables width stepx stepy : Q.
Variable nb_orientations : Z.

Lemma apart_intersects (g h : G) : apart g h <-> geom_intersects g h = false.
Proof.
  unfold apart. rewrite <- not_true_iff_false, intersects_covers. split.
  - intros Hno (x & y & Hxy). exact (Hno x y Hxy).
  - intros Hno x y Hxy. apply Hno. eauto.
Qed.

Lemma apart_sym (g h : G) : apart g h -> apart h g.
Proof. intros Hgh x y [Hh Hg]. exact (Hgh x y (conj Hg Hh)). Qed.

Lemma pack_piece_apart (st st' : locals G) (geom : G) :
  pack_piece py fuel width stepx stepy nb_orientations st geom = Return st' ->
  occupancy_covers_placements st /\ pairwise_apart (placements st) ->
  occupancy_covers_placements st' /\ pairwise_apart (placements st').
Proof.
  intros (l & best & Hl & Hbest & Hcommit)%pack_piece_Return [Hcov Hapart].
  apply commit_Return in Hcommit as (_ & _ & _ & _ & _ & Hp & _ & Hs).
  assert (Hfree : geom_intersects (simplified_result st) (pos_geom best) = false)
    by (eapply candidates_free; [exact Hl|by apply py_min_elem]).
  apply apart_intersects in Hfree.
  assert (Hold : forall d, d ∈ placements st -> apart (pos_geom d) (pos_geom best)).
  { intros d Hd x y [Hdx Hbx]. apply (Hfree x y). split; [|exact Hbx]. by apply (Hcov d). }
  split.
  - intros d Hd x y Hdx. rewrite Hs, !covers_union.
    rewrite Hp in Hd. apply elem_of_app in Hd as [Hd|Hd%list_elem_of_singleton].
    + left; left. by apply (Hcov d).
    + subst d. left; by right.
  - intros i j di dj Hij Hi Hj. rewrite Hp in Hi, Hj.
    apply lookup_app_Some in Hi as [Hi|[Hlen Hi]];
      apply lookup_app_Some in Hj as [Hj|[Hlen' Hj]].
    + by apply (Hapart i j).
    + apply list_lookup_singleton_Some in Hj as [_ <-].
      apply Hold. apply list_elem_of_lookup. eauto.
    + apply list_lookup_singleton_Some in Hi as [_ <-].
      apply apart_sym, Hold. apply list_elem_of_lookup. eauto.
    + apply list_lookup_singleton_Some in Hi as [Hi _].
      apply list_lookup_singleton_Some in Hj as [Hj _]. lia.
Qed.

Lemma pack_pieces_count (geoms : list G) (st st' : locals G) :
  for_each (pack_piece py fuel width stepx stepy nb_orientations) geoms st = Return st' ->
  length (placements st') = (length (placements st) + length geoms)%nat.
Proof.
  revert st. induction geoms as [|geom geoms IH]; intros st E; simpl in E.
  - injection E as <-. simpl. lia.
  - apply bind_Return in E as (st1 & E1 & E2). apply IH in E2. rewrite E2.
    apply pack_piece_Return in E1 as (l & best & _ & _ & Hc).
    apply commit_Return in Hc as (_ & _ & _ & _ & _ & -> & _).
    rewrite length_app. simpl. lia.
Qed.

Lemma initial_placements (st0 : locals G) :
  initial width stepx = Return st0 ->
  placements st0 = [] /\ starting_yoffs st0 = replicate (Z.to_nat (py_int (width / stepx))) 0.
Proof.
  unfold initial. destruct (Qeq_bool stepx 0); [discriminate|].
  intros E. injection E as <-. by split.
Qed.

(** ** C1 *)

(** C1 (no overlap of committed placements).  At any point of a packing
    run, that is at the end of the run over any prefix [pre] of the pieces:
    one placement was committed per piece, the occupancy structure
    [simplified_result] covers every committed geometry, and two distinct
    committed geometries do not intersect: they have no point in common, so
    that the area of their intersection is below every positive epsilon. *)
Theorem C1_no_overlap (pre post : list G) (st_end : locals G) :
  tetris_pack_run py fuel width stepx stepy nb_orientations (pre ++ post) = Return st_end ->
  exists st,
    tetris_pack_run py fuel width stepx stepy nb_orientations pre = Return st /\
    length (placements st) = length pre /\
    occupancy_covers_placements st /\
    forall i j di dj, i <> j ->
      placements st !! i = Some di -> placements st !! j = Some dj ->
      geom_intersects (pos_geom di) (pos_geom dj) = false /\
      apart (pos_geom di) (pos_geom dj) /\
      forall eps, 0 < eps -> intersection_area (pos_geom di) (pos_geom dj) < eps.
Proof.
  intros (st & Hpre & _)%tetris_pack_run_app. exists st. split; [exact Hpre|].
  unfold tetris_pack_run in Hpre. apply bind_Return in Hpre as (st0 & Hinit & Hrun).
  apply initial_placements in Hinit as [Hp0 _].
  split; [apply pack_pieces_count in Hrun; rewrite Hrun, Hp0; reflexivity|].
  assert (Hinv : occupancy_covers_placements st /\ pairwise_apart (placements st)).
  { revert Hrun.
    apply (for_each_invariant
             (fun s => occupancy_covers_placements s /\ pairwise_apart (placements s))).
    - intros s geom s' _ Hs Hstep. eapply pack_piece_apart; eauto.
    - rewrite Hp0. split.
      + intros d Hd. rewrite Hp0 in Hd. by apply elem_of_nil in Hd.
      + intros i j di dj _ Hi. by rewrite lookup_nil in Hi. }
  destruct Hinv as [Hcov Hapart]. split; [exact Hcov|].
  intros i j di dj Hij Hi Hj. pose proof (Hapart i j di dj Hij Hi Hj) as Hdis.
  split; [by apply apart_intersects|]. split; [exact Hdis|].
  intros eps Heps. rewrite (area_disjoint _ _ Hdis). exact Heps.
Qed.

End NoOverlap.

(** ** Runs, as equations *)

Section RunEquations.
Context {G : Type} `{Geometry G}.
Variable py : python.
Variable fuel : nat.
Variables width stepx stepy : Q.
Variable nb_orientations : Z.

Lemma tetris_pack_run_app_eq (pre post : list G) :
  tetris_pack_run py fuel width stepx stepy nb_orientations (pre ++ post)
  = (tetris_pack_run py fuel width stepx stepy nb_orientations pre
       ≫= for_each (pack_piece py fuel width stepx stepy nb_orientations) post).
Proof.
  unfold tetris_pack_run. destruct (initial width stepx) as [st0| |]; simpl; auto.
  apply for_each_app.
Qed.

Lemma columns_too_wide (g : G) : 0 < stepx -> too_wide width g -> columns width stepx g = [].
Proof.
  unfold too_wide, columns. destruct (geom_bounds g) as [[[minx miny] maxx] maxy].
  intros Hstep Hwide. apply py_range_empty.
  assert (Hlt : (width - maxx) / stepx < - minx / stepx).
  { unfold Qdiv. apply Qmult_lt_compat_r; [by apply Qinv_lt_0_compat|lra]. }
  pose proof (Qfloor_le ((width - maxx) / stepx)) as Hfloor.
  pose proof (Qle_ceiling (- minx / stepx)) as Hceil.
  apply Z.lt_le_incl. rewrite Zlt_Qlt. lra.
Qed.

End RunEquations.

(** ** C2 *)

Section SingleSquare.
Import Rectilinear Sheets.

(** C2 (single square on an empty sheet), as the code has it.  One 2 x 2
    square with its pivot at its centre, sheet width 10, steps 1, one
    orientation: the feasible columns are 1 to 8, the piece is committed in
    column 1, the leftmost of them (the column is where the pivot goes, so
    the left edge of the bounding box is at 0), at resting height 0, and its
    bounding box has miny = 0 and maxy = 2. *)
Theorem C2_single_square_column_1 (py : python) (fuel : nat) :
  exists st d,
    tetris_pack_run py fuel 10 1 1 1 [square] = Return st /\
    placements st = [d] /\
    columns 10 1 (affinity_rotate square (rotation_angle py 1 0))
    = [1; 2; 3; 4; 5; 6; 7; 8]%Z /\
    pos_orientation d = 0%Z /\ pos_x d = 1%Z /\ pos_yoff d = 0 /\
    geom_bounds (pos_geom d) = (0, 0, 2, 2).
Proof.
  exists one_square_w10,
    {| pos_orientation := 0; pos_x := 1; pos_yoff := 0; pos_maxy := 2;
       pos_geom := [ {| x0 := 0; y0 := 0; x1 := 2; y1 := 2 |} ] |}.
  split.
  - rewrite (tetris_pack_run_fuel py 10 1 1 1 0 fuel) by (lia || (destruct py; by vm_compute)).
    destruct py; by vm_compute.
  - destruct py; by vm_compute.
Qed.

(** The column index claimed for C2, 0, is not the one committed. *)
Lemma C2_column_is_not_0 :
  ~ exists st d,
      tetris_pack_run Python3 5 10 1 1 1 [square] = Return st /\
      placements st = [d] /\ pos_x d = 0%Z.
Proof.
  intros (st & d & E & Hp & Hx). vm_compute in E. injection E as <-.
  simpl in Hp. injection Hp as <-. discriminate Hx.
Qed.

End SingleSquare.

(** ** C3 *)

Section TooWide.
Context {G : Type} `{Geometry G}.
Variable py : python.
Variable fuel : nat.
Variables width stepx stepy : Q.
Variable nb_orientations : Z.

(** C3 (a piece wider than the sheet), as the code has it.  When the run
    reaches a piece whose rotated bounding box is wider than the sheet in
    every orientation, no column is feasible, [possible_positions] stays
    empty and [min] raises [ValueError]: the exception is not caught, so
    the whole run ends with it, whatever pieces were to follow.  The piece
    is not dropped silently; no PieceTooWide error exists, and nothing in
    the exception names the piece. *)
Theorem C3_too_wide_raises_ValueError (pre post : list G) (g : G) (st : locals G) :
  0 < stepx ->
  tetris_pack_run py fuel width stepx stepy nb_orientations pre = Return st ->
  (forall i, (0 <= i < nb_orientations)%Z ->
     too_wide width (affinity_rotate g (rotation_angle py nb_orientations i))) ->
  candidates py fuel width stepx stepy nb_orientations st g = Return [] /\
  pack_piece py fuel width stepx stepy nb_orientations st g = Raise ValueError /\
  tetris_pack_run py fuel width stepx stepy nb_orientations (pre ++ g :: post)
    = Raise ValueError /\
  tetris_pack py fuel width stepx stepy nb_orientations (pre ++ g :: post)
    = Raise ValueError.
Proof.
  intros Hstep Hpre Hwide.
  assert (Hnone : candidates py fuel width stepx stepy nb_orientations st g = Return []).
  { apply candidates_none. intros i Hi. by apply columns_too_wide, Hwide. }
  assert (Hpiece : pack_piece py fuel width stepx stepy nb_orientations st g
                   = Raise ValueError)
    by (unfold pack_piece; by rewrite Hnone).
  assert (Hrun : tetris_pack_run py fuel width stepx stepy nb_orientations (pre ++ g :: post)
                 = Raise ValueError).
  { rewrite tetris_pack_run_app_eq, Hpre. simpl. by rewrite Hpiece. }
  repeat split; auto. unfold tetris_pack. by rewrite Hrun.
Qed.

End TooWide.

Section TooWideOnASheet.
Import Rectilinear Sheets RectilinearFacts.

Lemma C3_too_wide_raises_ValueError_witness :
  candidates Python3 3 1 1 1 1 empty_sheet_w1 square = Return [] /\
  pack_piece Python3 3 1 1 1 1 empty_sheet_w1 square = Raise ValueError /\
  tetris_pack_run Python3 3 1 1 1 1 ([] ++ square :: [gamma]) = Raise ValueError /\
  tetris_pack Python3 3 1 1 1 1 ([] ++ square :: [gamma]) = Raise ValueError.
Proof.
  apply (C3_too_wide_raises_ValueError Python3 3 1 1 1 1 [] [gamma] square empty_sheet_w1).
  - reflexivity.
  - vm_compute. reflexivity.
  - intros i Hi. replace i with 0%Z by lia. vm_compute. reflexivity.
Defined.

(** A 2 x 2 square on a sheet of width 1: the run is over with an uncaught
    [ValueError], whatever the fuel, and hands nothing back. *)
Lemma C3_run_crashes :
  (forall i, (0 <= i < 1)%Z ->
     too_wide 1 (affinity_rotate square (rotation_angle Python3 1 i))) /\
  forall fuel, tetris_pack Python3 fuel 1 1 1 1 [square] = Raise ValueError.
Proof.
  split.
  - intros i Hi. replace i with 0%Z by lia. vm_compute. reflexivity.
  - intros fuel. unfold tetris_pack.
    rewrite (tetris_pack_run_fuel Python3 1 1 1 1 0 fuel) by (lia || by vm_compute).
    by vm_compute.
Qed.

End TooWideOnASheet.

(** ** C4 *)

Section NoCap.
Context {G : Type} `{Geometry G}.
Variables stepx stepy : Q.

Lemma try_column_OutOfFuel fuel (st : locals G) i geom_rotated l x w :
  py_getitem (starting_yoffs st) x = Return w ->
  (forall j, (j <= fuel)%nat ->
     geom_intersects (simplified_result st)
       (probe stepy
          (affinity_translate geom_rotated (inject_Z x * stepx)
             (- (miny_of geom_rotated)))
          w
          (affinity_translate geom_rotated (inject_Z x * stepx)
             (- (miny_of geom_rotated)))
          j) = true) ->
  try_column fuel stepx stepy st i geom_rotated l x = OutOfFuel.
Proof.
  unfold try_column, miny_of.
  destruct (geom_bounds geom_rotated) as [[[minx miny] maxx] maxy].
  simpl. intros -> Hbusy%move_up_OutOfFuel. simpl. by rewrite Hbusy.
Qed.

(** C4 (the vertical probe), as the code has it.  The loop of line 119 has
    no bound on the height or on the number of iterations, and no
    PackingOverflow: it tests the shape it is given, then [geom_xshifted]
    raised to [yoff + stepy], [yoff + 2 stepy], ..., and nothing but a test
    that finds the shape free ends it.  With room for [n] iterations the
    search has an answer exactly when one of the first [n + 1] shapes is
    free, the answer being the first free one; it is still running after
    [n] iterations exactly when the first [n + 1] shapes all intersect the
    placed material; it raises nothing; and a candidate whose search is
    still running is not set aside: [try_column] is not over either. *)
Theorem C4_vertical_probe_has_no_cap (occupied geom_xshifted : G) (yoff : Q) :
  (forall n y g,
     move_up stepy n occupied geom_xshifted yoff geom_xshifted = Return (y, g) <->
     exists k, (k <= n)%nat /\
       (forall j, (j < k)%nat ->
          geom_intersects occupied (probe stepy geom_xshifted yoff geom_xshifted j) = true) /\
       geom_intersects occupied (probe stepy geom_xshifted yoff geom_xshifted k) = false /\
       y = probe_yoff stepy yoff k /\
       g = probe stepy geom_xshifted yoff geom_xshifted k) /\
  (forall n,
     move_up stepy n occupied geom_xshifted yoff geom_xshifted = OutOfFuel <->
     forall j, (j <= n)%nat ->
       geom_intersects occupied (probe stepy geom_xshifted yoff geom_xshifted j) = true) /\
  (forall n e, move_up stepy n occupied geom_xshifted yoff geom_xshifted <> Raise e) /\
  (forall n (st : locals G) i geom_rotated l x,
     simplified_result st = occupied ->
     affinity_translate geom_rotated (inject_Z x * stepx)
       (- (miny_of geom_rotated)) = geom_xshifted ->
     py_getitem (starting_yoffs st) x = Return yoff ->
     move_up stepy n occupied geom_xshifted yoff geom_xshifted = OutOfFuel ->
     try_column n stepx stepy st i geom_rotated l x = OutOfFuel).
Proof.
  split; [|split; [|split]].
  - intros n y g. apply move_up_Return.
  - intros n. apply move_up_OutOfFuel.
  - intros n e. apply move_up_no_Raise.
  - intros n st i geom_rotated l x <- <- Hw Hout.
    eapply try_column_OutOfFuel; [exact Hw|]. by apply move_up_OutOfFuel.
Qed.

End NoCap.

Section NoCapOnASheet.
Import Rectilinear Sheets RectilinearFacts.

Lemma probe_yoff_zero_step (k : nat) : probe_yoff 0 0 k = 0.
Proof. unfold probe_yoff. induction k as [|k IH]; simpl; [reflexivity|by rewrite IH]. Qed.

(** Two squares, sheet width 4, [stepy = 0]: the second square starts on
    the first and is never raised off it.  No amount of iterations ends the
    search of its first column, and the run hands nothing back. *)
Lemma C4_zero_step_never_ends :
  ~ exists fuel, tetris_pack Python3 fuel 4 1 0 1 [square; square] <> OutOfFuel.
Proof.
  intros [fuel Hdone]. apply Hdone. clear Hdone. unfold tetris_pack.
  change [square; square] with ([square] ++ [square]).
  rewrite tetris_pack_run_app_eq.
  rewrite (tetris_pack_run_fuel Python3 4 1 0 1 0 fuel) by (lia || by vm_compute).
  replace (tetris_pack_run Python3 0 4 1 0 1 [square])
    with (Return (locals_of (tetris_pack_run Python3 0 4 1 0 1 [square])))
    by (vm_compute; reflexivity).
  set (st := locals_of _). cbn [mbind outcome_bind for_each].
  unfold pack_piece, candidates.
  change (py_range 0 1) with [0%Z]. cbn [for_each]. unfold try_orientation.
  replace (columns 4 1 (affinity_rotate square (rotation_angle Python3 1 0)))
    with [1%Z; 2%Z] by (vm_compute; reflexivity).
  cbn [for_each]. rewrite (try_column_OutOfFuel 1 0 fuel st _ _ _ 1 0); [reflexivity| |].
  - vm_compute. reflexivity.
  - intros j _. destruct j as [|j]; [vm_compute; reflexivity|].
    unfold probe. rewrite probe_yoff_zero_step. vm_compute. reflexivity.
Qed.

End NoCapOnASheet.

(** ** C5 *)

Lemma py_index_length {A B : Type} (l : list A) (l' : list B) (x : Z) :
  length l = length l' -> py_index l x = py_index l' x.
Proof. unfold py_index. by intros ->. Qed.

Lemma names_entry_length {A B : Type} (l : list A) (l' : list B) (xs : list Z) (k : nat) :
  length l = length l' -> names_entry l xs k = names_entry l' xs k.
Proof.
  intros Hlen. unfold names_entry. induction xs as [|x xs IH]; simpl; [reflexivity|].
  by rewrite IH, (py_index_length l l' x Hlen).
Qed.

Lemma py_max_idem (y m : Q) : py_max (py_max y m) m = py_max y m.
Proof.
  unfold py_max. destruct (Qle_bool m y) eqn:E; [by rewrite E|].
  replace (Qle_bool m m) with true; [reflexivity|]. symmetry. apply Qle_bool_iff, Qle_refl.
Qed.

(** The loop of lines 133-134, entry by entry. *)
Lemma raise_levels_lookup (miny : Q) (xs : list Z) (l l' : list Q) :
  for_each (raise_level miny) xs l = Return l' ->
  length l' = length l /\
  forall k v, l !! k = Some v ->
    l' !! k = Some (if names_entry l xs k then py_max v miny else v).
Proof.
  revert l. induction xs as [|x xs IH]; intros l E; simpl in E.
  - injection E as <-. split; [reflexivity|]. intros k v Hk. exact Hk.
  - apply bind_Return in E as (l1 & (kx & y & Hkx & Hy & ->)%raise_level_Return & E).
    apply IH in E as [Hlen Hlookup]. rewrite length_insert in Hlen.
    split; [exact Hlen|]. intros k v Hk.
    assert (Hsame : names_entry (<[kx:=py_max y miny]> l) xs k = names_entry l xs k)
      by apply names_entry_length, length_insert.
    unfold names_entry at 1. simpl. fold (names_entry l xs k). rewrite Hkx.
    destruct (decide (kx = k)) as [->|Hne].
    + rewrite bool_decide_eq_true_2 by reflexivity. simpl.
      rewrite Hy in Hk. injection Hk as ->.
      rewrite (Hlookup k (py_max v miny)), Hsame.
      * destruct (names_entry l xs k); [by rewrite py_max_idem|reflexivity].
      * apply list_lookup_insert_eq. by apply lookup_lt_Some in Hy.
    + rewrite bool_decide_eq_false_2 by congruence. simpl.
      rewrite <- Hsame. apply Hlookup. by rewrite list_lookup_insert_ne.
Qed.

Section Commit.
Context {G : Type} `{Geometry G}.
Variable py : python.
Variable fuel : nat.
Variables width stepx stepy : Q.
Variable nb_orientations : Z.


End Commit.

Section CommitOnASheet.
Import Rectilinear Sheets RectilinearFacts.



End CommitOnASheet.

(** ** C6 *)

Section Touching.
Context {G : Type} `{GeometryLaws G}.
Variables stepx stepy : Q.

(** C6 (contact in the intersection test), as the code has it.  The test of
    line 119 is shapely's plain [intersects], without any tolerance: it is
    true as soon as the candidate has one point in common with the placed
    material, be it a point of an edge or a corner.  A candidate that
    touches the placed material at its first position is therefore not
    recorded there: whenever column [x] records something, it is the piece
    raised by [stepy] at least once, at a height where it has no point at
    all in common with the placed material.  No tolerance is a parameter of
    [tetris_pack]; the one numeric margin in the code is the constant 1e-6
    by which line 132 lowers the rectangle under a piece (see [shadow]). *)
Theorem C6_touching_candidate_is_raised (fuel : nat) (st : locals G) (i : Z)
    (geom_rotated : G) (l : list (position G)) (x : Z) (w : Q) (d : position G)
    (px py : Q) :
  let geom_xshifted :=
    affinity_translate geom_rotated (inject_Z x * stepx) (- (miny_of geom_rotated)) in
  py_getitem (starting_yoffs st) x = Return w ->
  covers (simplified_result st) px py -> covers geom_xshifted px py ->
  try_column fuel stepx stepy st i geom_rotated l x = Return (l ++ [d]) ->
  geom_intersects (simplified_result st) geom_xshifted = true /\
  exists k, (1 <= k <= fuel)%nat /\
    pos_yoff d = probe_yoff stepy w k /\
    pos_geom d = affinity_translate geom_xshifted 0 (probe_yoff stepy w k) /\
    apart (simplified_result st) (pos_geom d).
Proof.
  intros geom_xshifted Hw Hocc Hcand Hcol.
  assert (Hhit : geom_intersects (simplified_result st) geom_xshifted = true)
    by (apply intersects_covers; eauto).
  split; [exact Hhit|].
  apply try_column_Return in Hcol as (d' & Hd & Hrec).
  apply app_inv_head in Hd. injection Hd as <-.
  unfold recorded in Hrec. subst geom_xshifted. unfold miny_of in *.
  destruct (geom_bounds geom_rotated) as [[[minx miny] maxx] maxy]. simpl in *.
  destruct Hrec as (_ & _ & _ & w' & Hw' & Hup).
  rewrite Hw in Hw'. injection Hw' as <-.
  apply move_up_Return in Hup as (k & Hk & _ & Hfree & Hy & Hg).
  destruct k as [|k]; [simpl in Hfree; congruence|].
  exists (S k). split; [lia|]. split; [exact Hy|]. split; [exact Hg|].
  apply apart_intersects. by rewrite Hg.
Qed.

End Touching.

Section TouchingOnASheet.
Import Rectilinear Sheets RectilinearFacts.

Lemma C6_touching_candidate_is_raised_witness :
  geom_intersects (simplified_result one_square_w10)
    (affinity_translate square (inject_Z 3 * 1) (- (miny_of square))) = true /\
  exists k, (1 <= k <= 3)%nat /\
    pos_yoff square_in_column_3 = probe_yoff 1 0 k /\
    pos_geom square_in_column_3
    = affinity_translate
        (affinity_translate square (inject_Z 3 * 1) (- (miny_of square)))
        0 (probe_yoff 1 0 k) /\
    apart (simplified_result one_square_w10) (pos_geom square_in_column_3).
Proof.
  apply (C6_touching_candidate_is_raised (H0 := rect_laws) 1 1 3 one_square_w10 0
           square [] 3 0 square_in_column_3 2 1).
  - vm_compute. reflexivity.
  - apply Exists_cons_hd. vm_compute. repeat split; discriminate.
  - apply Exists_cons_hd. vm_compute. repeat split; discriminate.
  - vm_compute. reflexivity.
Defined.

(** Two squares, sheet width 10, steps 1.  In column 3 the second square
    would stand against the first: the two have an edge in common and no
    area.  The test of line 119 reports a collision all the same, the
    piece is raised to height 3 in that column, and the square is
    committed in column 4 instead. *)
Lemma C6_touching_counts_as_collision :
  tetris_pack_run Python3 0 10 1 1 1 [square] = Return one_square_w10 /\
  intersection_area (result one_square_w10) (affinity_translate square 3 1) == 0 /\
  geom_intersects (simplified_result one_square_w10) (affinity_translate square 3 1) = true /\
  try_column 3 1 1 one_square_w10 0 square [] 3 = Return [square_in_column_3] /\
  pos_yoff square_in_column_3 == 3 /\
  transforms (tetris_pack_run Python3 3 10 1 1 1 [square; square])
  = Return [(0%Z, 1%Z, 0); (0%Z, 4%Z, 0)].
Proof. repeat split; vm_compute; reflexivity. Qed.

End TouchingOnASheet.

(** ** C7 *)

Section SelectionRule.
Context {G : Type} `{Geometry G}.
Variable py : python.
Variable fuel : nat.
Variables width stepx stepy : Q.
Variable nb_orientations : Z.

(** What line 123 stores under ['maxy'] is the recorded height plus the
    height of the rotated piece. *)
Lemma candidates_maxy (st : locals G) (geom : G) (l : list (position G)) (d : position G) :
  candidates py fuel width stepx stepy nb_orientations st geom = Return l ->
  d ∈ l ->
  let geom_rotated :=
    affinity_rotate geom (rotation_angle py nb_orientations (pos_orientation d)) in
  pos_maxy d = pos_yoff d + maxy_of geom_rotated - miny_of geom_rotated.
Proof.
  intros Hl%candidates_Return Hd.
  apply list_elem_of_lookup in Hd as [k Hk].
  destruct (Forall2_lookup_r _ _ _ _ _ Hl Hk) as ([i x] & _ & Hrec).
  unfold recorded, maxy_of, miny_of in *. simpl in Hrec.
  destruct (geom_bounds (affinity_rotate geom (rotation_angle py nb_orientations i)))
    as [[[minx miny] maxx] maxy] eqn:Hb.
  destruct Hrec as (Hi & _ & Hmaxy & _). cbv zeta. rewrite Hi, Hb. exact Hmaxy.
Qed.

(** X16.  The selection of line 124, on the values that line 123 recorded.
    Take a piece for which the two loops recorded the candidates [l], at
    least one.  They were recorded orientation after orientation and,
    within an orientation, column after column, each with
    [maxy = yoff + (height of the rotated piece)].  Line 124 picks one of
    them, [best], and it is [best] that lines 125-138 commit.  [best]
    splits [l] in two: every candidate recorded before it has a larger
    recorded [maxy], or the same [maxy] and a larger column; every
    candidate recorded after it has a larger recorded [maxy], or the same
    [maxy] and a column at least as large.  So a smaller recorded [maxy]
    wins, the smaller column wins among equal [maxy], and of several
    candidates with the same [maxy] and column (they differ in orientation)
    the first one recorded is committed. *)
Theorem selection_by_recorded_maxy_then_column (st : locals G) (geom : G)
    (l : list (position G)) :
  candidates py fuel width stepx stepy nb_orientations st geom = Return l ->
  l <> [] ->
  map (fun d => (pos_orientation d, pos_x d)) l
  = enumeration py width stepx nb_orientations geom /\
  (forall d, d ∈ l ->
     pos_maxy d
     = pos_yoff d
       + maxy_of (affinity_rotate geom (rotation_angle py nb_orientations (pos_orientation d)))
       - miny_of (affinity_rotate geom (rotation_angle py nb_orientations (pos_orientation d)))) /\
  exists l1 best l2,
    py_min l = Return best /\
    pack_piece py fuel width stepx stepy nb_orientations st geom = commit stepx st best /\
    (forall st', pack_piece py fuel width stepx stepy nb_orientations st geom = Return st' ->
       placements st' = placements st ++ [best]) /\
    l = l1 ++ best :: l2 /\
    (forall d, d ∈ l1 ->
       pos_maxy best < pos_maxy d \/
       (pos_maxy best == pos_maxy d /\ (pos_x best < pos_x d)%Z)) /\
    (forall d, d ∈ l2 ->
       pos_maxy best < pos_maxy d \/
       (pos_maxy best == pos_maxy d /\ (pos_x best <= pos_x d)%Z)).
Proof.
  intros Hl Hne. split; [by apply candidates_order in Hl|].
  split; [intros d Hd; by apply (candidates_maxy st geom l d Hl)|].
  destruct (py_min l) as [best| |] eqn:Hbest;
    [|destruct l; [congruence|discriminate]..].
  pose proof Hbest as (l1 & l2 & -> & Hl1 & Hl2)%py_min_first.
  assert (Hpiece : pack_piece py fuel width stepx stepy nb_orientations st geom
                   = commit stepx st best).
  { unfold pack_piece. rewrite Hl. simpl. by rewrite Hbest. }
  exists l1, best, l2. split; [reflexivity|]. split; [exact Hpiece|]. split.
  { intros st' Hst'. rewrite Hpiece in Hst'.
    by apply commit_Return in Hst' as (_ & _ & _ & _ & _ & Hp & _). }
  split; [reflexivity|]. split.
  - intros d Hd. exact (Hl1 d Hd).
  - intros d Hd. exact (Hl2 d Hd).
Qed.

End SelectionRule.

Section SelectionOnASheet.
Import Rectilinear Sheets RectilinearFacts.

Lemma selection_by_recorded_maxy_then_column_witness :
  map (fun d => (pos_orientation d, pos_x d)) second_square_candidates
  = enumeration Python3 10 1 1 square /\
  (forall d, d ∈ second_square_candidates ->
     pos_maxy d
     = pos_yoff d
       + maxy_of (affinity_rotate square (rotation_angle Python3 1 (pos_orientation d)))
       - miny_of (affinity_rotate square (rotation_angle Python3 1 (pos_orientation d)))) /\
  exists l1 best l2,
    py_min second_square_candidates = Return best /\
    pack_piece Python3 3 10 1 1 1 one_square_w10 square = commit 1 one_square_w10 best /\
    (forall st', pack_piece Python3 3 10 1 1 1 one_square_w10 square = Return st' ->
       placements st' = placements one_square_w10 ++ [best]) /\
    second_square_candidates = l1 ++ best :: l2 /\
    (forall d, d ∈ l1 ->
       pos_maxy best < pos_maxy d \/
       (pos_maxy best == pos_maxy d /\ (pos_x best < pos_x d)%Z)) /\
    (forall d, d ∈ l2 ->
       pos_maxy best < pos_maxy d \/
       (pos_maxy best == pos_maxy d /\ (pos_x best <= pos_x d)%Z)).
Proof.
  apply (selection_by_recorded_maxy_then_column Python3 3 10 1 1 1 one_square_w10 square
           second_square_candidates).
  - vm_compute. reflexivity.
  - discriminate.
Defined.

(** The tie of the design document: of the second square's candidates, the
    columns 4 to 8 all have their top edge at 2; column 4 is committed. *)
Example second_square_ties :
  candidates Python3 3 10 1 1 1 one_square_w10 square = Return second_square_candidates /\
  map (fun d => (pos_x d, Qred (pos_maxy d))) second_square_candidates
  = [(1%Z, 5); (2%Z, 5); (3%Z, 5); (4%Z, 2); (5%Z, 2); (6%Z, 2); (7%Z, 2); (8%Z, 2)] /\
  map transform (placements two_squares_w10) = [(0%Z, 1%Z, 0); (0%Z, 4%Z, 0)].
Proof. repeat split; vm_compute; reflexivity. Qed.


End SelectionOnASheet.

(** ** C8 *)

Section Monotone.
Context {G : Type} `{Geometry G}.
Variable py : python.
Variable fuel : nat.
Variables width stepx stepy : Q.
Variable nb_orientations : Z.

(** C8 (monotonic water levels).  With a vertical step that is not
    negative, take any run and any piece [g] of it.  The water levels are
    all 0 at the start, and from there on no level ever goes down: not from
    the start to the state [st] in which [g] is reached, not when line 125
    overwrites the level of the chosen column, not in the loop of lines
    133-134 over the columns spanned by the bounding box, and not from the
    state [st'] after [g] to the end of the run.  ([levels_le] compares two
    lists of the same length entry by entry.) *)
Theorem C8_water_levels_never_go_down (pre post : list G) (g : G) (st_end : locals G) :
  0 <= stepy ->
  tetris_pack_run py fuel width stepx stepy nb_orientations (pre ++ g :: post)
    = Return st_end ->
  exists st0 st best yoffs1 st',
    initial width stepx = Return st0 /\
    starting_yoffs st0 = replicate (Z.to_nat (py_int (width / stepx))) 0 /\
    tetris_pack_run py fuel width stepx stepy nb_orientations pre = Return st /\
    levels_le (starting_yoffs st0) (starting_yoffs st) /\
    pack_piece py fuel width stepx stepy nb_orientations st g = Return st' /\
    placements st' = placements st ++ [best] /\
    py_setitem (starting_yoffs st) (pos_x best) (pos_yoff best) = Return yoffs1 /\
    levels_le (starting_yoffs st) yoffs1 /\
    levels_le yoffs1 (starting_yoffs st') /\
    levels_le (starting_yoffs st') (starting_yoffs st_end).
Proof.
  intros Hstep (st & Hpre & Hpost)%tetris_pack_run_app.
  simpl in Hpost. apply bind_Return in Hpost as (st' & Hg & Hpost).
  pose proof Hpre as Hpre'. unfold tetris_pack_run in Hpre'.
  apply bind_Return in Hpre' as (st0 & Hinit & Hrun).
  destruct (pack_piece_levels py width stepx stepy nb_orientations fuel st st' g Hstep Hg)
    as (best & yoffs1 & Hp & Hset & Hle1 & Hle2).
  exists st0, st, best, yoffs1, st'.
  split; [exact Hinit|]. split; [by apply initial_placements in Hinit as [_ ?]|].
  split; [exact Hpre|]. split; [by eapply pack_pieces_levels|].
  repeat split; auto. by eapply pack_pieces_levels.
Qed.

End Monotone.

Section MonotoneOnASheet.
Import Rectilinear Sheets RectilinearFacts.

Lemma C8_water_levels_never_go_down_witness :
  exists st0 st best yoffs1 st',
    initial 4 1 = Return st0 /\
    starting_yoffs st0 = replicate (Z.to_nat (py_int (4 / 1))) 0 /\
    tetris_pack_run Python3 3 4 1 1 1 [square] = Return st /\
    levels_le (starting_yoffs st0) (starting_yoffs st) /\
    pack_piece Python3 3 4 1 1 1 st square = Return st' /\
    placements st' = placements st ++ [best] /\
    py_setitem (starting_yoffs st) (pos_x best) (pos_yoff best) = Return yoffs1 /\
    levels_le (starting_yoffs st) yoffs1 /\
    levels_le yoffs1 (starting_yoffs st') /\
    levels_le (starting_yoffs st') (starting_yoffs three_pieces_w4).
Proof.
  apply (C8_water_levels_never_go_down Python3 3 4 1 1 1 [square] [gamma] square
           three_pieces_w4).
  - vm_compute. discriminate.
  - vm_compute. reflexivity.
Defined.

(** With a negative vertical step a water level goes down.  On a sheet of
    width 4 with [stepy = -1], the first square is committed in column 1
    at height 0 and leaves all levels at 0.  The second square collides
    in column 1, is moved to -1, -2 (where it still touches) and -3, and
    is committed there: line 125 writes -3 over the 0 of column 1, and the
    [max] of line 134 keeps it. *)
Lemma C8_negative_step_lowers_a_level :
  (tetris_pack_run Python3 3 4 1 (-1) 1 [square] = Return one_square_down_w4) /\
  (pack_piece Python3 3 4 1 (-1) 1 one_square_down_w4 square = Return two_squares_down_w4) /\
  (tetris_pack_run Python3 3 4 1 (-1) 1 [square; square] = Return two_squares_down_w4) /\
  (map Qred (starting_yoffs one_square_down_w4) = [0; 0; 0; 0]) /\
  (map Qred (starting_yoffs two_squares_down_w4) = [0; -3; 0; 0]) /\
  (map transform (placements two_squares_down_w4) = [(0%Z, 1%Z, 0); (0%Z, 1%Z, -3)]) /\
  ~ levels_le (starting_yoffs one_square_down_w4) (starting_yoffs two_squares_down_w4).
Proof.
  repeat split; try (vm_compute; reflexivity).
  intros Hle. apply Forall2_cons_1 in Hle as [_ Hle].
  apply Forall2_cons_1 in Hle as [Hle _]. vm_compute in Hle. by apply Hle.
Qed.

End MonotoneOnASheet.

(** ** C10 *)

Section ProbeStart.
Context {G : Type} `{GeometryLaws G}.
Variables stepx stepy : Q.

Lemma move_up_first_free (n : nat) (occupied geom_xshifted : G) (yoff : Q) (g : G) :
  geom_intersects occupied g = false ->
  move_up stepy n occupied geom_xshifted yoff g = Return (yoff, g).
Proof. intros Hfree. destruct n; simpl; by rewrite Hfree. Qed.

(** C10 (where the vertical search starts).  The first test of a column is
    made on [geom_xshifted], the rotated piece moved to the column with its
    bottom edge at y = 0, whatever the column's water level [w]; the next
    one, if any, is made at [w + stepy].  If the first test finds no collision in a
    column whose level is positive, line 123 records [yoff = w] and
    [maxy = w + maxy - miny], the top edge of a piece resting at [w], next
    to a geometry whose bottom edge is at 0 and whose top edge is at
    [maxy - miny]: neither the recorded height nor the recorded top edge is
    that of the recorded geometry. *)
Theorem C10_first_test_is_at_the_bottom (fuel : nat) (st : locals G) (i : Z)
    (geom_rotated : G) (l : list (position G)) (x : Z) (w : Q) :
  let geom_xshifted :=
    affinity_translate geom_rotated (inject_Z x * stepx) (- (miny_of geom_rotated)) in
  (exists px py, covers geom_rotated px py) ->
  py_getitem (starting_yoffs st) x = Return w ->
  0 < w ->
  move_up stepy fuel (simplified_result st) geom_xshifted w geom_xshifted
  = (if geom_intersects (simplified_result st) geom_xshifted
     then match fuel with
          | O => OutOfFuel
          | S n => move_up stepy n (simplified_result st) geom_xshifted (w + stepy)
                     (affinity_translate geom_xshifted 0 (w + stepy))
          end
     else Return (w, geom_xshifted)) /\
  miny_of geom_xshifted == 0 /\
  (geom_intersects (simplified_result st) geom_xshifted = false ->
   exists d,
     try_column fuel stepx stepy st i geom_rotated l x = Return (l ++ [d]) /\
     pos_orientation d = i /\ pos_x d = x /\
     pos_yoff d = w /\
     pos_maxy d = w + maxy_of geom_rotated - miny_of geom_rotated /\
     pos_geom d = geom_xshifted /\
     miny_of (pos_geom d) == 0 /\
     maxy_of (pos_geom d) == maxy_of geom_rotated - miny_of geom_rotated /\
     ~ miny_of (pos_geom d) == pos_yoff d /\
     ~ maxy_of (pos_geom d) == pos_maxy d).
Proof.
  intros geom_xshifted Hnonempty Hw Hpos.
  pose proof (bounds_translate geom_rotated (inject_Z x * stepx)
                (- (miny_of geom_rotated)) Hnonempty) as Hb.
  fold geom_xshifted in Hb.
  assert (Hmin : miny_of geom_xshifted == 0 /\
                 maxy_of geom_xshifted == maxy_of geom_rotated - miny_of geom_rotated).
  { unfold miny_of, maxy_of in *.
    destruct (geom_bounds geom_rotated) as [[[minx miny] maxx] maxy].
    destruct (geom_bounds geom_xshifted) as [[[minx' miny'] maxx'] maxy'].
    simpl in *. destruct Hb as (_ & Hy & _ & Hy'). split; lra. }
  destruct Hmin as [Hmin Hmax].
  split; [by destruct fuel|]. split; [exact Hmin|]. intros Hfree.
  exists {| pos_orientation := i; pos_x := x; pos_yoff := w;
            pos_maxy := w + maxy_of geom_rotated - miny_of geom_rotated;
            pos_geom := geom_xshifted |}.
  simpl. split.
  - unfold try_column. subst geom_xshifted. unfold miny_of, maxy_of in *.
    destruct (geom_bounds geom_rotated) as [[[minx miny] maxx] maxy].
    simpl in *. rewrite Hw. simpl.
    rewrite (move_up_first_free _ _ _ _ _ Hfree). reflexivity.
  - repeat split; auto.
    + rewrite Hmin. lra.
    + rewrite Hmax. lra.
Qed.

End ProbeStart.

Section ProbeStartOnASheet.
Import Rectilinear Sheets RectilinearFacts.

Lemma C10_first_test_is_at_the_bottom_witness :
  move_up 1 3 (simplified_result two_squares_w4)
    (affinity_translate gamma (inject_Z 1 * 1) (- (miny_of gamma))) 3
    (affinity_translate gamma (inject_Z 1 * 1) (- (miny_of gamma)))
  = (if geom_intersects (simplified_result two_squares_w4)
          (affinity_translate gamma (inject_Z 1 * 1) (- (miny_of gamma)))
     then move_up 1 2 (simplified_result two_squares_w4)
            (affinity_translate gamma (inject_Z 1 * 1) (- (miny_of gamma))) (3 + 1)
            (affinity_translate
               (affinity_translate gamma (inject_Z 1 * 1) (- (miny_of gamma))) 0 (3 + 1))
     else Return (3, affinity_translate gamma (inject_Z 1 * 1) (- (miny_of gamma)))) /\
  miny_of (affinity_translate gamma (inject_Z 1 * 1) (- (miny_of gamma))) == 0 /\
  (geom_intersects (simplified_result two_squares_w4)
     (affinity_translate gamma (inject_Z 1 * 1) (- (miny_of gamma))) = false ->
   exists d,
     try_column 3 1 1 two_squares_w4 0 gamma [] 1 = Return ([] ++ [d]) /\
     pos_orientation d = 0%Z /\ pos_x d = 1%Z /\
     pos_yoff d = 3 /\
     pos_maxy d = 3 + maxy_of gamma - miny_of gamma /\
     pos_geom d = affinity_translate gamma (inject_Z 1 * 1) (- (miny_of gamma)) /\
     miny_of (pos_geom d) == 0 /\
     maxy_of (pos_geom d) == maxy_of gamma - miny_of gamma /\
     ~ miny_of (pos_geom d) == pos_yoff d /\
     ~ maxy_of (pos_geom d) == pos_maxy d).
Proof.
  apply (C10_first_test_is_at_the_bottom (H0 := rect_laws) 1 1 3 two_squares_w4 0 gamma [] 1 3).
  - exists 2, 0. apply Exists_cons_hd. vm_compute. repeat split; discriminate.
  - vm_compute. reflexivity.
  - reflexivity.
Defined.

(** The case does occur in a run.  Two squares are stacked on a sheet of
    width 4, which puts the water level of column 1 at 3.  The third piece,
    [gamma], stands free beside and above them with its foot at 0: its
    first test passes, and it is committed with [yoff = 3] and [maxy = 9]
    while its geometry reaches from 0 to 6. *)
Example gamma_is_committed_at_the_bottom :
  tetris_pack_run Python3 3 4 1 1 1 [square; square; gamma] = Return three_pieces_w4 /\
  starting_yoffs two_squares_w4 = [3; 3; 0; 0] /\
  geom_intersects (simplified_result two_squares_w4)
    (affinity_translate gamma (inject_Z 1 * 1) (- (miny_of gamma))) = false /\
  exists d, placements three_pieces_w4 !! 2%nat = Some d /\
    pos_x d = 1%Z /\ pos_yoff d = 3 /\ Qred (pos_maxy d) = 9 /\
    Qred (miny_of (pos_geom d)) = 0 /\ Qred (maxy_of (pos_geom d)) = 6.
Proof.
  split; [vm_compute; reflexivity|]. split; [vm_compute; reflexivity|].
  split; [vm_compute; reflexivity|]. eexists. split; [vm_compute; reflexivity|].
  repeat split; vm_compute; reflexivity.
Qed.

End ProbeStartOnASheet.

Section NoOverlapOnASheet.
Import Rectilinear Sheets RectilinearFacts.

Lemma C1_no_overlap_witness :
  exists st,
    tetris_pack_run Python3 3 4 1 1 1 [square; square] = Return st /\
    length (placements st) = length [square; square] /\
    occupancy_covers_placements st /\
    forall i j di dj, i <> j ->
      placements st !! i = Some di -> placements st !! j = Some dj ->
      geom_intersects (pos_geom di) (pos_geom dj) = false /\
      apart (pos_geom di) (pos_geom dj) /\
      forall eps, 0 < eps -> intersection_area (pos_geom di) (pos_geom dj) < eps.
Proof.
  apply (C1_no_overlap (H0 := rect_laws) Python3 3 4 1 1 1 [square; square] [gamma]
           three_pieces_w4).
  vm_compute. reflexivity.
Defined.

End NoOverlapOnASheet.

(** * The rest of the script *)

(** ** How many pieces are packed (lines 67-74, 89-90, 143) *)

Lemma py_list_mul_length {A : Type} (l : list A) (n : Z) :
  length (py_list_mul l n) = (Z.to_nat n * length l)%nat.
Proof.
  unfold py_list_mul. induction (Z.to_nat n) as [|k IH]; simpl; [reflexivity|].
  rewrite length_app, IH. reflexivity.
Qed.

Lemma py_list_mul_elem {A : Type} (l : list A) (n : Z) (a : A) :
  a ∈ py_list_mul l n -> a ∈ l.
Proof.
  unfold py_list_mul. induction (Z.to_nat n) as [|k IH]; simpl.
  - intros Ha. by apply elem_of_nil in Ha.
  - intros [Ha|Ha]%elem_of_app; auto.
Qed.

Section Pieces.
Context {G : Type} `{Geometry G}.
Variables branch lozenge_fat lozenge_slim : G.

(** X1.  [spacers(n)] is [n] sets of 64 spacers, as the comment of line 24 has
    it, and no spacer at all when [n] is not positive; [lozenges(n)] is [n]
    fat lozenges followed by [n] slim ones.  The list that is shuffled and
    packed has [2 * nl + 64 * ns] pieces, every one of them a lozenge or
    one of the seven kinds of spacers. *)
Theorem to_place_count (nl ns : Z) :
  length (spacers branch ns) = (64 * Z.to_nat ns)%nat /\
  length (lozenges lozenge_fat lozenge_slim nl) = (2 * Z.to_nat nl)%nat /\
  length (to_place branch lozenge_fat lozenge_slim nl ns)
  = (2 * Z.to_nat nl + 64 * Z.to_nat ns)%nat /\
  forall g, g ∈ to_place branch lozenge_fat lozenge_slim nl ns ->
    g ∈ [ lozenge_fat; lozenge_slim;
          spacer branch [4; 4; 2]%Z; spacer branch [3; 3; 4]%Z;
          spacer branch [4; 2; 2; 2]%Z; spacer branch [2; 2; 2; 2; 2]%Z;
          spacer branch [1; 2; 1; 3; 3]%Z; spacer branch [1; 1; 2; 2; 2; 2]%Z;
          spacer branch [1; 1; 2; 1; 1; 2; 2]%Z ].
Proof.
  assert (Hs : length (spacers branch ns) = (64 * Z.to_nat ns)%nat).
  { unfold spacers. rewrite !length_app, !py_list_mul_length. simpl. lia. }
  assert (Hl : length (lozenges lozenge_fat lozenge_slim nl) = (2 * Z.to_nat nl)%nat).
  { unfold lozenges. rewrite !length_app, !py_list_mul_length. simpl. lia. }
  split; [exact Hs|]. split; [exact Hl|]. split.
  - unfold to_place. rewrite length_app, Hs, Hl. reflexivity.
  - intros g Hg. unfold to_place, lozenges, spacers in Hg.
    repeat (apply elem_of_app in Hg as [Hg|Hg]);
      repeat apply py_list_mul_elem in Hg; apply list_elem_of_singleton in Hg; subst g;
      set_solver.
Qed.

End Pieces.

(** ** What a spacer is made of (lines 52-61) *)

Section Spacer.
Context {G : Type} `{GeometryLaws G}.
Variable branch : G.

(** X2.  The angles of [spacer] add up: the list gives the angle between one
    branch and the next, in units of 36 degrees, not the direction of each
    branch.  A spacer is made of the branch itself, which points along the
    x axis, and of one copy of it for every increment, turned about the
    origin by 36 degrees times the sum of the increments so far; it has no
    other point. *)
Theorem spacer_covers (angles : list Z) (x y : Q) :
  covers (spacer branch angles) x y <->
  covers branch x y \/
  exists a, a ∈ running_angles 0 angles /\
    covers (affinity_rotate branch (inject_Z a)) x y.
Proof.
  unfold spacer.
  assert (Hloop : forall acc : Z * G,
            covers (snd (fold_left (spacer_step branch) angles acc)) x y <->
            covers (snd acc) x y \/
            exists a, a ∈ running_angles (fst acc) angles /\
              covers (affinity_rotate branch (inject_Z a)) x y).
  { induction angles as [|incr angles IH]; intros acc; simpl.
    - split; [by left|]. intros [Hb|(a & Ha & _)]; [exact Hb|by apply elem_of_nil in Ha].
    - rewrite IH. unfold spacer_step at 1 2. simpl. rewrite covers_union. split.
      + intros [[Hb|Hr]|(a & Ha & Hc)]; [by left| |].
        * right. eexists. split; [by left|exact Hr].
        * right. exists a. split; [by right|exact Hc].
      + intros [Hb|(a & [->|Ha]%elem_of_cons & Hc)].
        * left; by left.
        * left; by right.
        * right. eauto. }
  apply (Hloop (0%Z, branch)).
Qed.

End Spacer.

(** ** The SVG clean-up (lines 156-165) *)

Lemma set_cutter_attributes_lookup (x : element) (k : string) :
  attrib (set_cutter_attributes x) !! k
  = if decide (k = "stroke") then Some "#ff0000"
    else if decide (k = "opacity") then Some "1"
    else if decide (k = "stroke-width") then Some "1"
    else if decide (k = "fill") then Some "#ffffff"
    else attrib x !! k.
Proof.
  destruct x as [t a tx tl c]. simpl.
  repeat (case_decide; [subst k; by simplify_map_eq|]).
  by rewrite !lookup_insert_ne by congruence.
Qed.

Lemma set_cutter_attributes_twice (x : element) :
  set_cutter_attributes (set_cutter_attributes x) = set_cutter_attributes x.
Proof.
  destruct x as [t a tx tl c]. simpl. f_equal. apply map_eq. intros k.
  pose proof (set_cutter_attributes_lookup
                (set_cutter_attributes (Element t a tx tl c)) k) as H2.
  pose proof (set_cutter_attributes_lookup (Element t a tx tl c) k) as H1.
  simpl in H1, H2. rewrite H2, H1. repeat case_decide; reflexivity.
Qed.

Lemma set_cutter_attributes_tag (x : element) : tag (set_cutter_attributes x) = tag x.
Proof. by destruct x. Qed.

(** X3.  What [fix_svg] changes in the tree and what it leaves alone.  The root
    keeps its tag, attributes, text and tail, and as many children in the
    same order.  A child tagged [path] gets the four attributes that the
    laser cutter wants, whatever their earlier values, and keeps its other
    attributes, its text, its tail and its own children as they are.  Any
    other child is not touched.  So a [path] that is the root itself, or
    that lies deeper than the root's children, is left as [svg()] printed
    it. *)
Theorem fix_svg_element_spec (xml : element) :
  tag (fix_svg_element xml) = tag xml /\
  attrib (fix_svg_element xml) = attrib xml /\
  text (fix_svg_element xml) = text xml /\
  tail_text (fix_svg_element xml) = tail_text xml /\
  length (children (fix_svg_element xml)) = length (children xml) /\
  forall (n : nat) (x : element), children xml !! n = Some x ->
    exists x', children (fix_svg_element xml) !! n = Some x' /\
      if decide (tag x = "path") then
        tag x' = "path" /\ text x' = text x /\ tail_text x' = tail_text x /\
        children x' = children x /\
        attrib x' !! "fill" = Some "#ffffff" /\
        attrib x' !! "stroke-width" = Some "1" /\
        attrib x' !! "opacity" = Some "1" /\
        attrib x' !! "stroke" = Some "#ff0000" /\
        forall k, k <> "fill" -> k <> "stroke-width" -> k <> "opacity" -> k <> "stroke" ->
          attrib x' !! k = attrib x !! k
      else x' = x.
Proof.
  destruct xml as [t a tx tl c]. simpl. repeat split; [by rewrite length_map|].
  intros n x Hx. eexists. split; [by rewrite list_lookup_fmap, Hx|].
  destruct (decide (tag x = "path")) as [Hpath|Hother]; [|reflexivity].
  split; [by rewrite set_cutter_attributes_tag|].
  destruct x as [t' a' tx' tl' c']. simpl. repeat split; try by simplify_map_eq.
  intros k ? ? ? ?. by rewrite !lookup_insert_ne by congruence.
Qed.

(** X4.  Cleaning up twice is cleaning up once. *)
Theorem fix_svg_element_idempotent (xml : element) :
  fix_svg_element (fix_svg_element xml) = fix_svg_element xml.
Proof.
  destruct xml as [t a tx tl c]. simpl. f_equal. rewrite map_map.
  apply map_ext. intros x. destruct (decide (tag x = "path")) as [Hpath|Hother].
  - rewrite decide_True by (by rewrite set_cutter_attributes_tag).
    apply set_cutter_attributes_twice.
  - by rewrite decide_False.
Qed.

(** ** The angle of an orientation (line 113) *)

(** X5.  When the number of orientations divides 360, as the 10 of line 151
    does, the interpreter named in the header (python2, whose [/] floors)
    and Python 3 turn the piece by the same angles. *)
Theorem rotation_angle_same_in_both_pythons (nb_orientations i : Z) :
  (nb_orientations | 360)%Z ->
  rotation_angle Python2 nb_orientations i == rotation_angle Python3 nb_orientations i.
Proof.
  intros [q Hq]. unfold rotation_angle.
  assert (Hnz : nb_orientations <> 0%Z) by (intros ->; lia).
  rewrite Hq, Z.div_mul by exact Hnz.
  rewrite !inject_Z_mult. field. intros Hz.
  apply Hnz. by apply (inject_Z_injective nb_orientations 0%Z).
Qed.

Lemma rotation_angle_same_in_both_pythons_witness :
  rotation_angle Python2 10 3 == rotation_angle Python3 10 3.
Proof.
  apply (rotation_angle_same_in_both_pythons 10 3). exists 36%Z. reflexivity.
Defined.

(** * More about [tetris_pack] *)

(** ** The rectilinear instance obeys the other laws too *)

Module RectilinearPlane.
Import Rectilinear RectilinearFacts.

Lemma rect_join_above (r s : rect) :
  x0 (rect_join r s) <= x0 r /\ x0 (rect_join r s) <= x0 s /\
  y0 (rect_join r s) <= y0 r /\ y0 (rect_join r s) <= y0 s /\
  x1 r <= x1 (rect_join r s) /\ x1 s <= x1 (rect_join r s) /\
  y1 r <= y1 (rect_join r s) /\ y1 s <= y1 (rect_join r s).
Proof.
  unfold rect_join. simpl.
  repeat split; auto using Q.le_min_l, Q.le_min_r, Q.le_max_l, Q.le_max_r.
Qed.

(** The join of a list of rectangles contains each of them. *)
Lemma fold_join_contains (g : shape) (r s : rect) :
  s ∈ r :: g ->
  x0 (fold_left rect_join g r) <= x0 s /\ y0 (fold_left rect_join g r) <= y0 s /\
  x1 s <= x1 (fold_left rect_join g r) /\ y1 s <= y1 (fold_left rect_join g r).
Proof.
  revert r s. induction g as [|a g IH]; intros r s Hs; simpl.
  - apply list_elem_of_singleton in Hs as ->. repeat split; apply Qle_refl.
  - pose proof (rect_join_above r a) as (? & ? & ? & ? & ? & ? & ? & ?).
    destruct (IH (rect_join r a) (rect_join r a)) as (? & ? & ? & ?); [by left|].
    apply elem_of_cons in Hs as [->|[->|Hs]%elem_of_cons].
    + repeat split; eapply Qle_trans; eauto.
    + repeat split; eapply Qle_trans; eauto.
    + apply IH. by right.
Qed.

(** The top of the join is the top of one of the rectangles. *)
Lemma fold_join_top (g : shape) (r : rect) :
  exists s, s ∈ r :: g /\ y1 (fold_left rect_join g r) <= y1 s.
Proof.
  revert r. induction g as [|a g IH]; intros r; simpl.
  - exists r. split; [by left|apply Qle_refl].
  - destruct (IH (rect_join r a)) as (s & [->|Hs]%elem_of_cons & Hle).
    + simpl in Hle. destruct (Q.max_spec (y1 r) (y1 a)) as [[_ Hm]|[_ Hm]].
      * exists a. split; [right; by left|]. by rewrite <- Hm.
      * exists r. split; [by left|]. by rewrite <- Hm.
    + exists s. split; [right; by right|exact Hle].
Qed.

Lemma rect_plane_laws : PlaneLaws shape.
Proof.
  split.
  - intros g x y x' y' Hx Hy Hc. simpl in *. unfold shape_covers in *.
    eapply Exists_impl; [exact Hc|]. unfold rect_covers. intros r.
    rewrite Hx, Hy. tauto.
  - intros g dx dy x y. simpl. unfold shape_covers.
    rewrite Exists_fmap.
    split; intros Hc; (eapply Exists_impl; [exact Hc|]); intros r;
      unfold rect_covers, rect_translate, compose; simpl; intros (? & ? & ? & ?);
      repeat split; lra.
  - intros g x y Hc. simpl in Hc. unfold shape_covers in Hc.
    apply Exists_exists in Hc as (s & Hs & (? & ? & ? & ?)).
    destruct g as [|r g]; [by apply elem_of_nil in Hs|].
    unfold minx_of, maxx_of, miny_of, maxy_of. simpl.
    destruct (fold_join_contains g r s Hs) as (? & ? & ? & ?).
    repeat split; eapply Qle_trans; eauto.
  - intros points x y Hc. simpl in Hc. unfold shape_covers, polygon in Hc.
    destruct points as [|p ps]; [by apply Exists_nil in Hc|].
    apply Exists_cons in Hc as [(_ & _ & _ & Hy)|Hc]; [|by apply Exists_nil in Hc].
    destruct (fold_join_top
                (map (fun q => {| x0 := fst q; y0 := snd q; x1 := fst q; y1 := snd q |}) ps)
                {| x0 := fst p; y0 := snd p; x1 := fst p; y1 := snd p |})
      as (s & Hs & Hle).
    apply elem_of_cons in Hs as [->|Hs].
    + exists p. split; [by left|]. simpl in Hle. lra.
    + apply list_elem_of_fmap in Hs as (q & -> & Hq).
      exists q. split; [by right|]. simpl in Hle. lra.
Qed.

End RectilinearPlane.

(** ** Loops: where an exception comes from, what a loop never yields *)

Section LoopOutcomes.
Context {A S : Type}.

(** A loop that raises does so in one of its iterations, after the earlier
    ones went through. *)
Lemma for_each_Raise (body : S -> A -> outcome S) (l : list A) (s : S) (e : exn) :
  for_each body l s = Raise e <->
  exists pre a post s', l = pre ++ a :: post /\
    for_each body pre s = Return s' /\ body s' a = Raise e.
Proof.
  revert s. induction l as [|a l IH]; intros s; simpl.
  - split; [discriminate|]. intros (pre & a & post & s' & Hl & _). by destruct pre.
  - split.
    + destruct (body s a) as [s1| |] eqn:E; simpl; [|intros [= ->]|discriminate].
      * intros (pre & a' & post & s' & -> & Hpre & Ha)%IH.
        exists (a :: pre), a', post, s'. simpl. rewrite E. auto.
      * exists [], a, l, s. auto.
    + intros (pre & a' & post & s' & Hl & Hpre & Ha).
      destruct pre as [|a0 pre]; simpl in *.
      * injection Hl as -> ->. injection Hpre as ->. by rewrite Ha.
      * injection Hl as -> ->. apply bind_Return in Hpre as (s1 & E1 & Hpre).
        rewrite E1. simpl. apply IH. eauto 10.
Qed.

(** An outcome other than a [Return] that no iteration yields, from states
    that keep an invariant, is not the outcome of the loop. *)
Lemma for_each_avoids (bad : outcome S) (P : S -> Prop) (body : S -> A -> outcome S)
    (l : list A) :
  (forall s, bad <> Return s) ->
  (forall s a s', a ∈ l -> P s -> body s a = Return s' -> P s') ->
  (forall s a, a ∈ l -> P s -> body s a <> bad) ->
  forall s, P s -> for_each body l s <> bad.
Proof.
  intros Hbad. induction l as [|a l IH]; intros Hkeep Havoid s Hs; simpl; [apply not_eq_sym, Hbad|].
  destruct (body s a) as [s'| |] eqn:E; simpl.
  - apply IH; [intros; eapply Hkeep; eauto; by right|intros; apply Havoid; auto; by right|].
    eapply Hkeep; eauto. by left.
  - rewrite <- E. apply Havoid; auto. by left.
  - rewrite <- E. apply Havoid; auto. by left.
Qed.

End LoopOutcomes.

(** ** Which exceptions [tetris_pack] raises *)

Lemma py_getitem_Raise {A : Type} (l : list A) (x : Z) (e : exn) :
  py_getitem l x = Raise e -> e = IndexError /\ py_index l x = None.
Proof.
  unfold py_getitem. destruct (py_index l x) as [k|] eqn:Hk.
  - destruct (l !! k) eqn:E; [discriminate|].
    apply py_index_lt in Hk. apply lookup_ge_None in E. lia.
  - intros [= <-]. by split.
Qed.

Lemma py_setitem_Raise {A : Type} (l : list A) (x : Z) (v : A) (e : exn) :
  py_setitem l x v = Raise e -> e = IndexError /\ py_index l x = None.
Proof.
  unfold py_setitem. destruct (py_index l x); [discriminate|]. intros [= <-]. by split.
Qed.

Lemma py_index_Some {A : Type} (l : list A) (x : Z) :
  (0 <= x < Z.of_nat (length l))%Z -> py_index l x = Some (Z.to_nat x).
Proof.
  intros Hx. unfold py_index.
  replace ((0 <=? x) && (x <? Z.of_nat (length l)))%Z with true; [reflexivity|].
  symmetry. apply andb_true_iff. split; [apply Z.leb_le|apply Z.ltb_lt]; lia.
Qed.

Lemma raise_level_outcome (miny : Q) (yoffs : list Q) (x : Z) :
  (exists yoffs', raise_level miny yoffs x = Return yoffs' /\ length yoffs' = length yoffs) \/
  (raise_level miny yoffs x = Raise IndexError /\ py_index yoffs x = None).
Proof.
  unfold raise_level, py_getitem, py_setitem.
  destruct (py_index yoffs x) as [k|] eqn:Hk; [|by right].
  pose proof (py_index_lt _ _ _ Hk) as Hlt. apply lookup_lt_is_Some in Hlt as [y Hy].
  rewrite Hy. simpl. left. eexists. split; [reflexivity|apply length_insert].
Qed.

Section Exceptions.
Context {G : Type} `{Geometry G}.
Variable py : python.
Variable fuel : nat.
Variables width stepx stepy : Q.
Variable nb_orientations : Z.

Lemma try_column_Raise (st : locals G) i geom_rotated l x e :
  try_column fuel stepx stepy st i geom_rotated l x = Raise e ->
  e = IndexError /\ py_index (starting_yoffs st) x = None.
Proof.
  unfold try_column. destruct (geom_bounds geom_rotated) as [[[minx miny] maxx] maxy].
  destruct (py_getitem (starting_yoffs st) x) as [w| |] eqn:Hw; simpl.
  - destruct (move_up _ _ _ _ _ _) as [[y g]| |] eqn:Hup; simpl; try discriminate.
    by apply move_up_no_Raise in Hup.
  - intros [= <-]. by apply py_getitem_Raise in Hw.
  - discriminate.
Qed.

Lemma candidates_Raise (st : locals G) (geom : G) (e : exn) :
  candidates py fuel width stepx stepy nb_orientations st geom = Raise e -> e = IndexError.
Proof.
  unfold candidates. intros (_ & i & _ & l & _ & _ & Hi)%for_each_Raise.
  unfold try_orientation in Hi.
  apply for_each_Raise in Hi as (_ & x & _ & l' & _ & _ & Hx).
  by apply try_column_Raise in Hx as [-> _].
Qed.

Lemma commit_Raise (st : locals G) (best : position G) (e : exn) :
  commit stepx st best = Raise e -> e = IndexError.
Proof.
  unfold commit.
  destruct (py_setitem _ _ _) as [yoffs| |] eqn:Hset; simpl;
    [|intros [= <-]; by apply py_setitem_Raise in Hset as [? _]|discriminate].
  destruct (geom_bounds (pos_geom best)) as [[[minx miny] maxx] maxy].
  destruct (for_each _ _ _) as [yoffs'| |] eqn:Hloop; simpl; try discriminate.
  intros [= <-].
  apply for_each_Raise in Hloop as (_ & x & _ & l' & _ & _ & Hx).
  destruct (raise_level_outcome miny l' x) as [(? & Hr & _)|[Hr _]]; congruence.
Qed.

Lemma enumeration_nil (geom : G) :
  enumeration py width stepx nb_orientations geom = [] <->
  forall i, (0 <= i < nb_orientations)%Z ->
    columns width stepx (affinity_rotate geom (rotation_angle py nb_orientations i)) = [].
Proof.
  unfold enumeration. split.
  - intros Hnil i Hi%py_range_elem.
    induction (py_range 0 nb_orientations) as [|j rest IH]; [by apply elem_of_nil in Hi|].
    simpl in Hnil. apply app_eq_nil in Hnil as [Hj Hrest].
    apply elem_of_cons in Hi as [->|Hi]; [|by apply IH].
    by apply fmap_nil_inv in Hj.
  - intros Hnone.
    assert (Hall : forall i, i ∈ py_range 0 nb_orientations ->
              columns width stepx
                (affinity_rotate geom (rotation_angle py nb_orientations i)) = [])
      by (intros i Hi%py_range_elem; by apply Hnone).
    clear Hnone. induction (py_range 0 nb_orientations) as [|j rest IH]; [reflexivity|].
    simpl. rewrite Hall by (by left). simpl. apply IH. intros; apply Hall. by right.
Qed.

(** The exceptions of one piece.  Line 124 raises [ValueError] exactly when
    no column is feasible in any orientation, that is when the two loops
    have nothing to go through; the only other exception a piece can raise
    is the [IndexError] of a subscript of [starting_yoffs]. *)
Lemma pack_piece_Raise (st : locals G) (geom : G) (e : exn) :
  pack_piece py fuel width stepx stepy nb_orientations st geom = Raise e ->
  e = IndexError \/
  (e = ValueError /\ enumeration py width stepx nb_orientations geom = []).
Proof.
  unfold pack_piece.
  destruct (candidates _ _ _ _ _ _ _ _) as [l| |] eqn:Hl; simpl;
    [|intros [= <-]; left; by apply candidates_Raise in Hl|discriminate].
  destruct l as [|d l]; simpl.
  - intros [= <-]. right. split; [reflexivity|]. by apply candidates_order in Hl.
  - intros He. left. by apply commit_Raise in He.
Qed.

Lemma pack_piece_no_candidate (st : locals G) (geom : G) :
  enumeration py width stepx nb_orientations geom = [] ->
  pack_piece py fuel width stepx stepy nb_orientations st geom = Raise ValueError.
Proof.
  intros Hnil. pose proof (proj1 (enumeration_nil geom) Hnil) as Hnone. unfold pack_piece.
  by rewrite (candidates_none py width stepx stepy nb_orientations fuel st geom Hnone).
Qed.

End Exceptions.

Section RunExceptions.
Context {G : Type} `{Geometry G}.
Variable py : python.
Variable fuel : nat.
Variables width stepx stepy : Q.
Variable nb_orientations : Z.

Lemma initial_outcome :
  (stepx == 0 /\ initial (G := G) width stepx = Raise ZeroDivisionError) \/
  (~ stepx == 0 /\ exists st0, initial (G := G) width stepx = Return st0).
Proof.
  unfold initial. destruct (Qeq_bool stepx 0) eqn:E.
  - left. split; [by apply Qeq_bool_iff|reflexivity].
  - right. split; [by apply Qeq_bool_neq|eauto].
Qed.

(** X6.  A zero column step, and nothing else, makes [tetris_pack] raise
    [ZeroDivisionError]; it does so on line 106, before it looks at any
    piece, so also for an empty list of pieces. *)
Theorem tetris_pack_ZeroDivisionError (geoms : list G) :
  tetris_pack py fuel width stepx stepy nb_orientations geoms = Raise ZeroDivisionError
  <-> stepx == 0.
Proof.
  unfold tetris_pack, tetris_pack_run.
  destruct initial_outcome as [[Hz ->]|[Hnz [st0 ->]]]; simpl; [by split|].
  split; [|contradiction].
  destruct (for_each _ _ _) as [st| |] eqn:Hrun; simpl; try discriminate.
  intros [= ->].
  apply for_each_Raise in Hrun as (_ & g & _ & st & _ & _ & Hg).
  apply pack_piece_Raise in Hg as [?|[? _]]; discriminate.
Qed.

(** X8.  Without an orientation to try ([nb_orientations] zero or negative) the
    first piece already has no candidate: on any list that is not empty,
    [tetris_pack] raises [ValueError], whatever the pieces and the sheet. *)
Theorem tetris_pack_without_orientations (geoms : list G) :
  ~ stepx == 0 -> (nb_orientations <= 0)%Z -> geoms <> [] ->
  tetris_pack py fuel width stepx stepy nb_orientations geoms = Raise ValueError.
Proof.
  intros Hnz Hnb Hne. destruct geoms as [|g rest]; [congruence|].
  unfold tetris_pack, tetris_pack_run.
  destruct initial_outcome as [[Hz _]|[_ [st0 ->]]]; [contradiction|]. simpl.
  rewrite pack_piece_no_candidate; [reflexivity|].
  apply enumeration_nil. intros i Hi. lia.
Qed.

End RunExceptions.

(** ** What the run hands back *)

Section Handback.
Context {G : Type} `{GeometryLaws G}.
Variable py : python.
Variable fuel : nat.
Variables width stepx stepy : Q.
Variable nb_orientations : Z.

(** What one piece adds to the locals. *)
Lemma pack_piece_grows (st st' : locals G) (geom : G) :
  pack_piece py fuel width stepx stepy nb_orientations st geom = Return st' ->
  exists best,
    placements st' = placements st ++ [best] /\
    nb_placed st' = (nb_placed st + 1)%Z /\
    global_maxy st' = py_max (maxy_of (pos_geom best)) (global_maxy st) /\
    (forall x y, covers (result st') x y <->
       covers (result st) x y \/ covers (pos_geom best) x y) /\
    (forall x y, covers (simplified_result st) x y \/ covers (pos_geom best) x y ->
       covers (simplified_result st') x y).
Proof.
  intros (l & best & _ & _ & Hcommit)%pack_piece_Return. exists best.
  unfold commit in Hcommit. apply bind_Return in Hcommit as (yoffs & _ & Hcommit).
  unfold maxy_of. destruct (geom_bounds (pos_geom best)) as [[[minx miny] maxx] maxy].
  apply bind_Return in Hcommit as (yoffs' & _ & Hcommit). injection Hcommit as <-. simpl.
  split; [reflexivity|]. split; [reflexivity|]. split; [reflexivity|]. split.
  - intros x y. apply covers_union.
  - intros x y [Hc|Hc]; apply covers_union; left; apply covers_union; auto.
Qed.

Lemma pack_piece_keeps_accounts (st st' : locals G) (geom : G) :
  pack_piece py fuel width stepx stepy nb_orientations st geom = Return st' ->
  accounts_agree st -> accounts_agree st'.
Proof.
  intros (best & Hp & Hn & Hm & Hres & Hocc)%pack_piece_grows (Hcount & Hunion & Hsub & Hpos & Htop).
  unfold accounts_agree. rewrite Hp, Hn, Hm, length_app. simpl. repeat split.
  - lia.
  - intros [Hc|Hc]%Hres.
    + apply Hunion in Hc as (d & Hd & Hc). exists d. split; [|exact Hc].
      apply elem_of_app. by left.
    + exists best. split; [|exact Hc]. apply elem_of_app. right. by left.
  - intros (d & [Hd|Hd%list_elem_of_singleton]%elem_of_app & Hc); apply Hres.
    + left. apply Hunion. eauto.
    + subst d. by right.
  - intros x y [Hc|Hc]%Hres; apply Hocc; auto.
  - eapply Qle_trans; [exact Hpos|apply py_max_le_r].
  - intros d [Hd|Hd%list_elem_of_singleton]%elem_of_app.
    + eapply Qle_trans; [by apply Htop|apply py_max_le_r].
    + subst d. apply py_max_le_l.
Qed.

(** X9.  The geometry handed back is the union of the committed geometries, no
    more and no less, one for every piece; the structure that the
    collision tests query covers it; [nb_placed] counts the pieces; and
    [global_maxy] is not negative and not below the top edge of any
    committed geometry. *)
Theorem tetris_pack_result_is_the_union (geoms : list G) (st : locals G) :
  tetris_pack_run py fuel width stepx stepy nb_orientations geoms = Return st ->
  tetris_pack py fuel width stepx stepy nb_orientations geoms = Return (result st) /\
  length (placements st) = length geoms /\
  nb_placed st = Z.of_nat (length geoms) /\
  (forall x y, covers (result st) x y <->
     exists d, d ∈ placements st /\ covers (pos_geom d) x y) /\
  (forall x y, covers (result st) x y -> covers (simplified_result st) x y) /\
  0 <= global_maxy st /\
  (forall d, d ∈ placements st -> maxy_of (pos_geom d) <= global_maxy st).
Proof.
  intros Hrun. split; [unfold tetris_pack; by rewrite Hrun|].
  unfold tetris_pack_run in Hrun. apply bind_Return in Hrun as (st0 & Hinit & Hrun).
  assert (Hlen : length (placements st) = length geoms).
  { apply pack_pieces_count in Hrun. apply initial_placements in Hinit as [Hp0 _].
    by rewrite Hrun, Hp0. }
  assert (Hinv : accounts_agree st).
  { revert Hrun. apply (for_each_invariant accounts_agree).
    - intros s geom s' _ Hs Hstep. by eapply pack_piece_keeps_accounts.
    - unfold initial in Hinit. destruct (Qeq_bool stepx 0); [discriminate|].
      injection Hinit as <-. unfold accounts_agree. simpl. repeat split.
      + intros Hc. by apply covers_empty in Hc.
      + intros (d & Hd & _). by apply elem_of_nil in Hd.
      + intros x y Hc. by apply covers_empty in Hc.
      + apply Qle_refl.
      + intros d Hd. by apply elem_of_nil in Hd. }
  destruct Hinv as (Hcount & Hunion & Hsub & Hpos & Htop).
  rewrite Hlen in Hcount. auto 10.
Qed.

(** X10.  The packer never goes back on a piece: the placements committed for a
    prefix of the pieces are the first placements of the whole run, in the
    same order, and what the prefix covered stays covered. *)
Theorem tetris_pack_never_moves_a_piece (pre post : list G) (st_end : locals G) :
  tetris_pack_run py fuel width stepx stepy nb_orientations (pre ++ post) = Return st_end ->
  exists st later,
    tetris_pack_run py fuel width stepx stepy nb_orientations pre = Return st /\
    placements st_end = placements st ++ later /\
    length later = length post /\
    (forall x y, covers (result st) x y -> covers (result st_end) x y) /\
    (forall x y, covers (simplified_result st) x y -> covers (simplified_result st_end) x y).
Proof.
  intros (st & Hpre & Hpost)%tetris_pack_run_app. exists st.
  cut (exists later, placements st_end = placements st ++ later /\
         length later = length post /\
         (forall x y, covers (result st) x y -> covers (result st_end) x y) /\
         (forall x y, covers (simplified_result st) x y ->
            covers (simplified_result st_end) x y)).
  { intros (later & ?). exists later. auto. }
  clear Hpre. revert st Hpost. induction post as [|g post IH]; intros st Hpost; simpl in Hpost.
  - injection Hpost as <-. exists []. rewrite app_nil_r. auto.
  - apply bind_Return in Hpost as (st1 & Hg & Hpost).
    apply pack_piece_grows in Hg as (best & Hp & _ & _ & Hres & Hocc).
    destruct (IH st1 Hpost) as (later & Hlater & Hlen & Hr & Hs).
    exists (best :: later). rewrite Hlater, Hp, <- app_assoc. simpl.
    repeat split; [by rewrite Hlen|intros x y Hc; apply Hr, Hres; by left|].
    intros x y Hc. apply Hs, Hocc. by left.
Qed.

End Handback.

(** ** Where a committed piece is *)

Section Where.
Context {G : Type} `{Geometry G} {HL : GeometryLaws G} {HP : PlaneLaws G}.
Variable py : python.
Variable fuel : nat.
Variables width stepx stepy : Q.
Variable nb_orientations : Z.

Lemma translate_nonempty (g : G) (dx dy : Q) :
  (exists x y, covers g x y) -> exists x y, covers (affinity_translate g dx dy) x y.
Proof.
  intros (x & y & Hc). exists (x + dx), (y + dy). apply covers_translate.
  eapply covers_compat; [| |exact Hc]; lra.
Qed.

Lemma bounds_of_translate (g : G) (dx dy : Q) :
  (exists x y, covers g x y) ->
  minx_of (affinity_translate g dx dy) == minx_of g + dx /\
  miny_of (affinity_translate g dx dy) == miny_of g + dy /\
  maxx_of (affinity_translate g dx dy) == maxx_of g + dx /\
  maxy_of (affinity_translate g dx dy) == maxy_of g + dy.
Proof.
  intros Hne. pose proof (bounds_translate g dx dy Hne) as Hb.
  unfold minx_of, miny_of, maxx_of, maxy_of.
  destruct (geom_bounds g) as [[[minx miny] maxx] maxy].
  by destruct (geom_bounds (affinity_translate g dx dy)) as [[[minx' miny'] maxx'] maxy'].
Qed.

(** The bounds of what line 123 records. *)
Lemma recorded_bounds (st : locals G) i geom_rotated x d :
  (exists px py, covers geom_rotated px py) ->
  recorded stepx stepy fuel st i geom_rotated x d ->
  minx_of (pos_geom d) == minx_of geom_rotated + inject_Z x * stepx /\
  maxx_of (pos_geom d) == maxx_of geom_rotated + inject_Z x * stepx /\
  maxy_of (pos_geom d) - miny_of (pos_geom d) == pos_maxy d - pos_yoff d /\
  (miny_of (pos_geom d) == 0 \/ miny_of (pos_geom d) == pos_yoff d).
Proof.
  intros Hne Hrec. unfold recorded in Hrec.
  pose proof (bounds_of_translate geom_rotated (inject_Z x * stepx)
                (- miny_of geom_rotated) Hne) as (Hx0 & Hy0 & Hx1 & Hy1).
  pose proof (translate_nonempty geom_rotated (inject_Z x * stepx)
                (- miny_of geom_rotated) Hne) as Hne'.
  unfold minx_of, miny_of, maxx_of, maxy_of in *.
  destruct (geom_bounds geom_rotated) as [[[minx miny] maxx] maxy]. simpl in *.
  destruct Hrec as (_ & _ & Hmaxy & w & _ & Hup).
  apply move_up_Return in Hup as (k & _ & _ & _ & Hy & Hg).
  rewrite Hmaxy. destruct k as [|k]; cbn [probe] in Hg.
  - rewrite Hg. repeat split; [exact Hx0|exact Hx1|lra|left; lra].
  - rewrite <- Hy in Hg.
    pose proof (bounds_of_translate _ 0 (pos_yoff d) Hne') as (Hx0' & Hy0' & Hx1' & Hy1').
    unfold minx_of, miny_of, maxx_of, maxy_of in *. rewrite Hg.
    repeat split; [lra|lra|lra|right; lra].
Qed.

(** A feasible column keeps the bounding box on the sheet. *)
Lemma columns_on_sheet (geom_rotated : G) (x : Z) :
  0 < stepx ->
  x ∈ columns width stepx geom_rotated ->
  0 <= minx_of geom_rotated + inject_Z x * stepx /\
  maxx_of geom_rotated + inject_Z x * stepx <= width - stepx.
Proof.
  unfold columns, minx_of, maxx_of.
  destruct (geom_bounds geom_rotated) as [[[minx miny] maxx] maxy]. cbn [fst snd].
  intros Hstep [Hlo Hhi]%py_range_elem.
  pose proof (Qle_ceiling (- minx / stepx)) as Hceil.
  pose proof (Qfloor_le ((width - maxx) / stepx)) as Hfloor.
  assert (Hlo' : - minx / stepx <= inject_Z x).
  { eapply Qle_trans; [exact Hceil|]. by rewrite <- Zle_Qle. }
  assert (Hhi' : inject_Z x + 1 <= (width - maxx) / stepx).
  { eapply Qle_trans; [|exact Hfloor].
    change 1 with (inject_Z 1). rewrite <- inject_Z_plus, <- Zle_Qle. lia. }
  apply (Qmult_le_compat_r _ _ stepx) in Hlo'; [|lra].
  apply (Qmult_le_compat_r _ _ stepx) in Hhi'; [|lra].
  assert (Hnz : ~ stepx == 0) by lra.
  unfold Qdiv in Hlo', Hhi'.
  rewrite <- Qmult_assoc, (Qmult_comm (/ stepx)), Qmult_inv_r, Qmult_1_r in Hlo' by exact Hnz.
  rewrite <- Qmult_assoc, (Qmult_comm (/ stepx)), Qmult_inv_r, Qmult_1_r in Hhi' by exact Hnz.
  split; lra.
Qed.

Lemma enumeration_elem (geom : G) (i x : Z) :
  (i, x) ∈ enumeration py width stepx nb_orientations geom <->
  (0 <= i < nb_orientations)%Z /\
  x ∈ columns width stepx (affinity_rotate geom (rotation_angle py nb_orientations i)).
Proof.
  unfold enumeration. rewrite list_elem_of_In, in_flat_map. split.
  - intros (i' & Hi'%list_elem_of_In & Hx%list_elem_of_In).
    apply list_elem_of_fmap in Hx as (x' & Heq & Hx). injection Heq as -> ->.
    split; [by apply py_range_elem|exact Hx].
  - intros [Hi Hx]. exists i. split; apply list_elem_of_In.
    + by apply py_range_elem.
    + apply list_elem_of_fmap. eauto.
Qed.

(** A candidate of a piece that has points, recorded in a feasible column. *)
Lemma candidates_where (st : locals G) (geom : G) (l : list (position G)) (d : position G) :
  0 < stepx ->
  (forall i, (0 <= i < nb_orientations)%Z ->
     exists x y, covers (affinity_rotate geom (rotation_angle py nb_orientations i)) x y) ->
  candidates py fuel width stepx stepy nb_orientations st geom = Return l ->
  d ∈ l ->
  0 <= minx_of (pos_geom d) /\ maxx_of (pos_geom d) <= width - stepx /\
  maxy_of (pos_geom d) - miny_of (pos_geom d) == pos_maxy d - pos_yoff d /\
  (miny_of (pos_geom d) == 0 \/ miny_of (pos_geom d) == pos_yoff d).
Proof.
  intros Hstep Hne Hl%candidates_Return Hd.
  apply list_elem_of_lookup in Hd as [n Hn].
  destruct (Forall2_lookup_r _ _ _ _ _ Hl Hn) as ([i x] & Hix & Hrec). simpl in Hrec.
  apply list_elem_of_lookup_2, enumeration_elem in Hix as [Hi' Hx].
  apply recorded_bounds in Hrec as (Hx0 & Hx1 & Hh & Hbottom); [|by apply Hne].
  apply columns_on_sheet in Hx as [Hlo Hhi]; [|exact Hstep].
  rewrite Hx0, Hx1. auto.
Qed.

(** X11.  Every committed bounding box lies on the sheet, between 0 and the
    width, and even leaves the last [stepx] of the width free: the column
    range of line 115 stops one column short.  This holds for a positive
    column step and pieces that have points in every orientation. *)
Theorem committed_pieces_are_on_the_sheet (geoms : list G) (st : locals G) :
  0 < stepx ->
  never_empty py nb_orientations geoms ->
  tetris_pack_run py fuel width stepx stepy nb_orientations geoms = Return st ->
  forall d, d ∈ placements st ->
    0 <= minx_of (pos_geom d) /\ maxx_of (pos_geom d) <= width - stepx /\
    maxx_of (pos_geom d) <= width.
Proof.
  intros Hstep Hne Hrun. unfold tetris_pack_run in Hrun.
  apply bind_Return in Hrun as (st0 & Hinit & Hrun).
  apply initial_placements in Hinit as [Hp0 _]. revert Hrun.
  apply (for_each_invariant
           (fun s => forall d, d ∈ placements s ->
              0 <= minx_of (pos_geom d) /\ maxx_of (pos_geom d) <= width - stepx /\
              maxx_of (pos_geom d) <= width)).
  - intros s g s' Hg Hs (l & best & Hl & Hbest & Hcommit)%pack_piece_Return d Hd.
    apply commit_Return in Hcommit as (_ & _ & _ & _ & _ & Hp & _).
    rewrite Hp in Hd. apply elem_of_app in Hd as [Hd|Hd%list_elem_of_singleton]; [by apply Hs|].
    subst d. apply py_min_elem in Hbest.
    destruct (candidates_where s g l best Hstep (Hne g Hg) Hl Hbest) as (? & ? & _).
    repeat split; auto. lra.
  - intros d Hd. rewrite Hp0 in Hd. by apply elem_of_nil in Hd.
Qed.

(** X12.  The height that is recorded for a committed piece, [maxy - yoff], is
    the height of its geometry, and the geometry has its bottom edge at the
    recorded [yoff] or else on the floor, at 0 (the case in which the first
    test passed). *)
Theorem committed_pieces_stand_at_yoff_or_on_the_floor (geoms : list G) (st : locals G) :
  never_empty py nb_orientations geoms ->
  tetris_pack_run py fuel width stepx stepy nb_orientations geoms = Return st ->
  forall d, d ∈ placements st ->
    maxy_of (pos_geom d) - miny_of (pos_geom d) == pos_maxy d - pos_yoff d /\
    (miny_of (pos_geom d) == 0 \/
     (miny_of (pos_geom d) == pos_yoff d /\ maxy_of (pos_geom d) == pos_maxy d)).
Proof.
  intros Hne Hrun. unfold tetris_pack_run in Hrun.
  apply bind_Return in Hrun as (st0 & Hinit & Hrun).
  apply initial_placements in Hinit as [Hp0 _]. revert Hrun.
  apply (for_each_invariant
           (fun s => forall d, d ∈ placements s ->
              maxy_of (pos_geom d) - miny_of (pos_geom d) == pos_maxy d - pos_yoff d /\
              (miny_of (pos_geom d) == 0 \/
               (miny_of (pos_geom d) == pos_yoff d /\ maxy_of (pos_geom d) == pos_maxy d)))).
  - intros s g s' Hg Hs (l & best & Hl%candidates_Return & Hbest & Hcommit)%pack_piece_Return d Hd.
    apply commit_Return in Hcommit as (_ & _ & _ & _ & _ & Hp & _).
    rewrite Hp in Hd. apply elem_of_app in Hd as [Hd|Hd%list_elem_of_singleton]; [by apply Hs|].
    subst d. apply py_min_elem, list_elem_of_lookup in Hbest as [n Hn].
    destruct (Forall2_lookup_r _ _ _ _ _ Hl Hn) as ([i x] & Hix & Hrec). simpl in Hrec.
    apply list_elem_of_lookup_2, enumeration_elem in Hix as [Hi' Hx].
    apply recorded_bounds in Hrec as (_ & _ & Hh & [Hb|Hb]); [| |by apply Hne].
    + split; [exact Hh|by left].
    + split; [exact Hh|]. right. split; [exact Hb|lra].
  - intros d Hd. rewrite Hp0 in Hd. by apply elem_of_nil in Hd.
Qed.

End Where.

(** ** Subscripts stay in range *)

Lemma py_int_floor (q : Q) (z : Z) : inject_Z z <= q -> (0 <= z)%Z -> (z <= py_int q)%Z.
Proof.
  intros Hz Hpos. unfold py_int.
  assert (H0 : 0 <= q).
  { eapply Qle_trans; [|exact Hz]. change 0 with (inject_Z 0). by rewrite <- Zle_Qle. }
  apply Qle_bool_iff in H0. rewrite H0.
  rewrite <- (Qfloor_Z z). by apply Qfloor_resp_le.
Qed.

Section Subscripts.
Context {G : Type} `{Geometry G} {HL : GeometryLaws G} {HP : PlaneLaws G}.
Variable py : python.
Variable fuel : nat.
Variables width stepx stepy : Q.
Variable nb_orientations : Z.
Hypothesis stepx_positive : 0 < stepx.

Lemma div_stepx_le (a : Q) (z : Z) :
  inject_Z z * stepx <= a <-> inject_Z z <= a / stepx.
Proof.
  split; intros Hle.
  - apply Qle_shift_div_l; [exact stepx_positive|exact Hle].
  - apply (Qmult_le_compat_r _ _ stepx) in Hle; [|lra].
    unfold Qdiv in Hle.
    rewrite <- Qmult_assoc, (Qmult_comm (/ stepx)), Qmult_inv_r, Qmult_1_r in Hle by lra.
    exact Hle.
Qed.

(** A bounding box on the sheet spans subscripts of [starting_yoffs]. *)
Lemma spanned_are_subscripts (minx maxx : Q) (x : Z) :
  0 <= minx -> maxx <= width ->
  x ∈ spanned stepx minx maxx -> (0 <= x < py_int (width / stepx))%Z.
Proof.
  unfold spanned. intros Hmin Hmax [Hlo Hhi]%py_range_elem.
  assert (H0 : (0 <= x)%Z).
  { eapply Z.le_trans; [|exact Hlo]. rewrite <- (Qceiling_Z 0).
    apply Qceiling_resp_le. change (inject_Z 0) with 0.
    apply Qle_shift_div_l; [exact stepx_positive|lra]. }
  split; [exact H0|].
  assert (Hx : (x + 1 <= Qfloor (maxx / stepx))%Z) by lia.
  eapply Z.lt_le_trans; [apply (Z.lt_succ_diag_r x)|].
  apply py_int_floor; [|lia].
  eapply Qle_trans; [rewrite Zle_Qle in Hx; exact Hx|].
  eapply Qle_trans; [apply Qfloor_le|].
  unfold Qdiv. apply Qmult_le_compat_r; [exact Hmax|].
  apply Qlt_le_weak, Qinv_lt_0_compat, stepx_positive.
Qed.

(** The feasible columns of a piece that contains its pivot are
    subscripts of [starting_yoffs]. *)
Lemma columns_are_subscripts (geom_rotated : G) (x : Z) :
  covers geom_rotated 0 0 ->
  x ∈ columns width stepx geom_rotated -> (0 <= x < py_int (width / stepx))%Z.
Proof.
  intros (Hminx & Hmaxx & _)%covers_bounds Hx.
  apply columns_on_sheet in Hx as [Hlo Hhi]; [|exact stepx_positive].
  assert (H0 : (0 <= x)%Z).
  { rewrite Zle_Qle. apply (Qmult_le_r _ _ stepx); [exact stepx_positive|].
    change (inject_Z 0) with 0. lra. }
  split; [exact H0|].
  eapply Z.lt_le_trans; [apply (Z.lt_succ_diag_r x)|].
  apply py_int_floor; [|lia]. apply div_stepx_le.
  unfold Z.succ. rewrite inject_Z_plus. change (inject_Z 1) with 1. lra.
Qed.

Lemma raise_levels_length (miny : Q) (xs : list Z) (l l' : list Q) :
  for_each (raise_level miny) xs l = Return l' -> length l' = length l.
Proof. by intros [Hlen _]%raise_levels_lookup. Qed.

Lemma pack_piece_length (st st' : locals G) (geom : G) :
  pack_piece py fuel width stepx stepy nb_orientations st geom = Return st' ->
  length (starting_yoffs st') = length (starting_yoffs st).
Proof.
  intros (l & best & _ & _ & Hcommit)%pack_piece_Return.
  apply commit_Return in Hcommit as (yoffs1 & yoffs2 & Hset & Hloop & <- & _).
  apply py_setitem_Return in Hset as (k & _ & ->).
  apply raise_levels_length in Hloop. by rewrite Hloop, length_insert.
Qed.

(** One piece that contains its pivot, on water levels of the right
    length: no subscript is out of range. *)
Lemma pack_piece_no_IndexError (st : locals G) (geom : G) :
  (forall i, (0 <= i < nb_orientations)%Z ->
     covers (affinity_rotate geom (rotation_angle py nb_orientations i)) 0 0) ->
  length (starting_yoffs st) = Z.to_nat (py_int (width / stepx)) ->
  pack_piece py fuel width stepx stepy nb_orientations st geom <> Raise IndexError.
Proof.
  intros Hpivot Hlen Hraise. unfold pack_piece in Hraise.
  destruct (candidates _ _ _ _ _ _ _ _) as [l|e|] eqn:Hl; simpl in Hraise; [| |discriminate].
  - destruct (py_min l) as [best|e|] eqn:Hbest; simpl in Hraise;
      [|destruct l; simpl in Hbest; congruence..].
    apply py_min_elem in Hbest.
    assert (Hwhere : 0 <= minx_of (pos_geom best) /\ maxx_of (pos_geom best) <= width).
    { destruct (candidates_where py fuel width stepx stepy nb_orientations st geom l best)
        as (? & ? & _); auto; [|split; [auto|lra]].
      intros i Hi. exists 0, 0. by apply Hpivot. }
    apply candidates_Return in Hl. apply list_elem_of_lookup in Hbest as [n Hn].
    destruct (Forall2_lookup_r _ _ _ _ _ Hl Hn) as ([i x] & _ & Hrec).
    apply recorded_level in Hrec as (k & w & _ & Hk & _).
    unfold commit in Hraise. unfold py_setitem in Hraise at 1. rewrite Hk in Hraise.
    simpl in Hraise. unfold minx_of, maxx_of in Hwhere.
    destruct (geom_bounds (pos_geom best)) as [[[minx miny] maxx] maxy]. simpl in Hwhere.
    destruct (for_each _ _ _) as [yoffs'|e|] eqn:Hloop; simpl in Hraise; try discriminate.
    apply for_each_Raise in Hloop as (pre & x' & post & l' & Hx' & Hpre & Hx).
    apply raise_levels_length in Hpre. rewrite length_insert in Hpre.
    destruct (raise_level_outcome miny l' x') as [(? & Hr & _)|[_ Hnone]]; [congruence|].
    rewrite py_index_Some in Hnone; [discriminate|].
    rewrite Hpre, Hlen.
    assert (Hin : x' ∈ spanned stepx minx maxx).
    { rewrite Hx'. apply elem_of_app. right. by left. }
    apply spanned_are_subscripts in Hin; [lia|tauto|tauto].
  - unfold candidates in Hl.
    apply for_each_Raise in Hl as (pre & i & post & l' & Hi & _ & Hl).
    unfold try_orientation in Hl.
    apply for_each_Raise in Hl as (pre' & x & post' & l'' & Hx & _ & Hl).
    apply try_column_Raise in Hl as [_ Hnone].
    rewrite py_index_Some in Hnone; [discriminate|]. rewrite Hlen.
    assert (Hi' : i ∈ py_range 0 nb_orientations).
    { rewrite Hi. apply elem_of_app. right. by left. }
    assert (Hx' : x ∈ columns width stepx
                      (affinity_rotate geom (rotation_angle py nb_orientations i))).
    { rewrite Hx. apply elem_of_app. right. by left. }
    apply py_range_elem in Hi'.
    apply columns_are_subscripts in Hx'; [lia|by apply Hpivot].
Qed.

Lemma pack_pieces_no_IndexError (geoms : list G) (st0 : locals G) :
  pivot_inside py nb_orientations geoms ->
  length (starting_yoffs st0) = Z.to_nat (py_int (width / stepx)) ->
  for_each (pack_piece py fuel width stepx stepy nb_orientations) geoms st0
  <> Raise IndexError.
Proof.
  intros Hpivot Hlen0.
  apply (for_each_avoids (Raise IndexError)
           (fun s => length (starting_yoffs s) = Z.to_nat (py_int (width / stepx))));
    [discriminate| | |exact Hlen0].
  - intros s g s' _ Hs Hstep. apply pack_piece_length in Hstep. congruence.
  - intros s g Hg Hs. apply pack_piece_no_IndexError; [by apply Hpivot|exact Hs].
Qed.

(** X13.  When the pieces contain their pivot in every orientation, as the
    docstring asks, and the column step is positive, no subscript of
    [starting_yoffs] is ever out of range: [tetris_pack] does not raise
    [IndexError], and the water levels keep the length they were given on
    line 107, one entry per column. *)
Theorem tetris_pack_no_IndexError (geoms : list G) :
  pivot_inside py nb_orientations geoms ->
  tetris_pack py fuel width stepx stepy nb_orientations geoms <> Raise IndexError /\
  forall st, tetris_pack_run py fuel width stepx stepy nb_orientations geoms = Return st ->
    length (starting_yoffs st) = Z.to_nat (py_int (width / stepx)).
Proof.
  intros Hpivot. unfold tetris_pack, tetris_pack_run.
  destruct (initial_outcome (G := G) width stepx) as [[Hz _]|[_ [st0 Hinit]]]; [lra|].
  rewrite Hinit. simpl. apply initial_placements in Hinit as [_ Hy0].
  assert (Hlen0 : length (starting_yoffs st0) = Z.to_nat (py_int (width / stepx)))
    by (by rewrite Hy0, length_replicate).
  split.
  - pose proof (pack_pieces_no_IndexError geoms st0 Hpivot Hlen0) as Hrun.
    destruct (for_each _ _ _); simpl; congruence.
  - intros st. apply (for_each_invariant
      (fun s => length (starting_yoffs s) = Z.to_nat (py_int (width / stepx))));
      [|exact Hlen0].
    intros s g s' _ Hs Hstep. apply pack_piece_length in Hstep. congruence.
Qed.

End Subscripts.

(** ** The same on a sheet *)

Section OnASheet.
Import Rectilinear Sheets RectilinearFacts RectilinearPlane.

Lemma pieces_contain_their_pivot : pivot_inside Python3 1 [square; square; gamma].
Proof.
  intros g Hg i Hi. replace i with 0%Z by lia.
  repeat (apply elem_of_cons in Hg as [->|Hg]); [| |
    |by apply elem_of_nil in Hg].
  - apply Exists_cons_hd. vm_compute. repeat split; discriminate.
  - apply Exists_cons_hd. vm_compute. repeat split; discriminate.
  - apply Exists_cons_tl, Exists_cons_hd. vm_compute. repeat split; discriminate.
Qed.

Lemma pieces_have_points : never_empty Python3 1 [square; square; gamma].
Proof. intros g Hg i Hi. exists 0, 0. by apply pieces_contain_their_pivot. Qed.

Lemma tetris_pack_without_orientations_witness :
  tetris_pack Python3 3 4 1 1 0 [square; gamma] = Raise ValueError.
Proof.
  apply (tetris_pack_without_orientations Python3 3 4 1 1 0 [square; gamma]).
  - vm_compute. discriminate.
  - lia.
  - discriminate.
Defined.

Lemma spacer_covers_witness :
  covers (spacer square [5%Z]) 0 0 <->
  covers square 0 0 \/
  exists a, a ∈ running_angles 0 [5%Z] /\ covers (affinity_rotate square (inject_Z a)) 0 0.
Proof. apply (spacer_covers (H0 := rect_laws) square [5%Z] 0 0). Defined.

Lemma tetris_pack_result_is_the_union_witness :
  tetris_pack Python3 3 4 1 1 1 [square; square; gamma] = Return (result three_pieces_w4) /\
  length (placements three_pieces_w4) = length [square; square; gamma] /\
  nb_placed three_pieces_w4 = Z.of_nat (length [square; square; gamma]) /\
  (forall x y, covers (result three_pieces_w4) x y <->
     exists d, d ∈ placements three_pieces_w4 /\ covers (pos_geom d) x y) /\
  (forall x y, covers (result three_pieces_w4) x y ->
     covers (simplified_result three_pieces_w4) x y) /\
  0 <= global_maxy three_pieces_w4 /\
  (forall d, d ∈ placements three_pieces_w4 ->
     maxy_of (pos_geom d) <= global_maxy three_pieces_w4).
Proof.
  apply (tetris_pack_result_is_the_union (H0 := rect_laws) Python3 3 4 1 1 1
           [square; square; gamma] three_pieces_w4).
  vm_compute. reflexivity.
Defined.

Lemma tetris_pack_never_moves_a_piece_witness :
  exists st later,
    tetris_pack_run Python3 3 4 1 1 1 [square] = Return st /\
    placements three_pieces_w4 = placements st ++ later /\
    length later = length [square; gamma] /\
    (forall x y, covers (result st) x y -> covers (result three_pieces_w4) x y) /\
    (forall x y, covers (simplified_result st) x y ->
       covers (simplified_result three_pieces_w4) x y).
Proof.
  apply (tetris_pack_never_moves_a_piece (H0 := rect_laws) Python3 3 4 1 1 1
           [square] [square; gamma] three_pieces_w4).
  vm_compute. reflexivity.
Defined.

Lemma committed_pieces_are_on_the_sheet_witness :
  0 <= minx_of (pos_geom gamma_placement) /\
  maxx_of (pos_geom gamma_placement) <= 4 - 1 /\
  maxx_of (pos_geom gamma_placement) <= 4.
Proof.
  apply (committed_pieces_are_on_the_sheet (HL := rect_laws) (HP := rect_plane_laws)
           Python3 3 4 1 1 1 [square; square; gamma] three_pieces_w4).
  - reflexivity.
  - exact pieces_have_points.
  - vm_compute. reflexivity.
  - right. right. left.
Defined.

Lemma committed_pieces_stand_at_yoff_or_on_the_floor_witness :
  maxy_of (pos_geom gamma_placement) - miny_of (pos_geom gamma_placement)
  == pos_maxy gamma_placement - pos_yoff gamma_placement /\
  (miny_of (pos_geom gamma_placement) == 0 \/
   (miny_of (pos_geom gamma_placement) == pos_yoff gamma_placement /\
    maxy_of (pos_geom gamma_placement) == pos_maxy gamma_placement)).
Proof.
  apply (committed_pieces_stand_at_yoff_or_on_the_floor (HL := rect_laws)
           (HP := rect_plane_laws) Python3 3 4 1 1 1 [square; square; gamma] three_pieces_w4).
  - exact pieces_have_points.
  - vm_compute. reflexivity.
  - right. right. left.
Defined.

Lemma tetris_pack_no_IndexError_witness :
  tetris_pack Python3 3 4 1 1 1 [square; square; gamma] <> Raise IndexError /\
  forall st, tetris_pack_run Python3 3 4 1 1 1 [square; square; gamma] = Return st ->
    length (starting_yoffs st) = Z.to_nat (py_int (4 / 1)).
Proof.
  apply (tetris_pack_no_IndexError (HL := rect_laws) (HP := rect_plane_laws)
           Python3 3 4 1 1 1).
  - reflexivity.
  - exact pieces_contain_their_pivot.
Defined.

End OnASheet.
